(** * CodeAssist AI: the four-stage pipeline and its two front ends

    A shallow embedding of [gradio.py] (the web-form front end) and of
    [multi_tool_agent/agent.py] (the console front end). Both files build
    the same [SequentialAgent] out of four [LlmAgent] stages and hand it to
    the agent framework's [Runner]; [gradio.py] adds a per-user session
    registry.

    Python state is threaded explicitly. The framework objects the two
    files import are modelled in [Module Adk]; the front-end functions are
    parametric in the runner, so that their properties hold for whatever
    the framework does, and are then instantiated with the pipeline runner
    that the specification describes. *)

From Stdlib Require Import Ascii.
From stdpp Require Import base strings list gmap pretty.

Open Scope string_scope.

(** ** google.genai.types *)

Module types.

Record Part := { text : option string }.

(** [parts] is optional in the library: None, or a list of parts. *)
Record Content := { role : string; parts : option (list Part) }.

End types.

(** ** The agent framework *)

Module Adk.

Inductive Tool := google_search.

Record LlmAgent := {
  name : string;
  model : string;
  instruction : string;
  description : string;
  output_key : string;
  tools : list Tool
}.

Record SequentialAgent := {
  seq_name : string;
  sub_agents : list LlmAgent;
  seq_description : string
}.

(** Exceptions that the modelled code can raise or let through. *)
Inductive Exception :=
  | AttributeError   (* attribute access on None *)
  | TypeError        (* subscript of None *)
  | IndexError       (* list index out of range *)
  | FrameworkError (msg : string).

(** An event yielded by a run. [content] is optional in the framework;
    [final_response] is the value of the event's [is_final_response()]. *)
Record Event := {
  author : string;
  content : option types.Content;
  final_response : bool
}.

Definition is_final_response (event : Event) : bool := final_response event.

(** [event.content.parts[0].text]: fails when the event has no content,
    when the parts of the content are None and when they are an empty
    list; the text itself may be None. *)
Definition content_parts_0_text (event : Event) : Exception + option string :=
  match content event with
  | None => inl AttributeError
  | Some c =>
      match types.parts c with
      | None => inl TypeError
      | Some [] => inl IndexError
      | Some (p :: _) => inr (types.text p)
      end
  end.

(** A session record: its identity and the mapping from output-key to the
    text the corresponding stage produced. *)
Record Session := {
  app_name : string;
  user_id : string;
  session_id : string;
  state : gmap string string
}.

Abbreviation SessionKey := (string * string * string)%type.
Abbreviation InMemorySessionService := (gmap SessionKey Session).

(** Modelled from the spec: the backing session store of the framework
    ([InMemorySessionService], not part of the repository). Creation
    "initializes an empty backing session record" under the given id. *)
Definition create_session (app user sid : string) (store : InMemorySessionService)
  : Session * InMemorySessionService :=
  let session := {| app_name := app; user_id := user; session_id := sid; state := ∅ |} in
  (session, <[(app, user, sid) := session]> store).

(** Modelled from the spec: lookup in the backing session store of the
    framework. "If the backing session store has no record for a resolved
    id, lookup fails": the call returns None; it does not raise. The result
    is a sum so that callers can be written with their exception
    handlers. *)
Definition get_session (app user sid : string) (store : InMemorySessionService)
  : Exception + option Session :=
  inr (store !! (app, user, sid)).

Record Runner := {
  agent : SequentialAgent;
  runner_app_name : string
}.

(** The observable behaviour of consuming the generator returned by
    [runner.run(...)]: the events it yields, each with the session store as
    it stands when the event is handed to the caller, then either normal
    exhaustion or an exception, and the store left behind. *)
Record Run := {
  yields : list (Event * InMemorySessionService);
  raised : option Exception;
  final : InMemorySessionService
}.

Abbreviation RunnerRun :=
  (Runner → string → string → types.Content → InMemorySessionService → Run).

(** A run is local when it leaves every record of the store alone but the
    one of the session it is run on. *)
Definition local_run (run : RunnerRun) : Prop :=
  ∀ runner user sid new_message store key,
    key ≠ (runner_app_name runner, user, sid) →
    Forall (λ y, y.2 !! key = store !! key)
      (yields (run runner user sid new_message store))
    ∧ final (run runner user sid new_message store) !! key = store !! key.

(** *** The pipeline runner of the specification *)

(** Modelled from the spec: what a stage's text generation is called
    with, the framework's request to the model: the stage's instruction,
    the original query (first stage only) and the outputs of the stages
    that have already run, addressed by output-key. *)
Record Prompt := {
  p_instruction : string;
  p_query : option string;
  p_outputs : list (string * string)
}.

(** Modelled from the spec: one executed stage of the framework's runner:
    the stage, the prompt it was given, the text it returned and the store
    after recording that text. *)
Record StageStep := {
  step_stage : LlmAgent;
  step_prompt : Prompt;
  step_text : string;
  step_store : InMemorySessionService
}.

(** Modelled from the spec: the state of a session of the framework's
    store, "a mapping from stage output-key to the text the corresponding
    stage produced"; empty when the store has no such session. *)
Definition session_state (key : SessionKey) (store : InMemorySessionService)
  : gmap string string :=
  match store !! key with
  | Some session => state session
  | None => ∅
  end.

(** Modelled from the spec: the framework's update of a session, "store
    the returned text under the stage's output-key in the session's
    state". *)
Definition record_output (output text : string) (session : Session) : Session :=
  {| app_name := app_name session;
     user_id := user_id session;
     session_id := session_id session;
     state := <[output := text]> (state session) |}.

(** Modelled from the spec: the query text the framework's runner takes
    from the message it is called with. *)
Definition query_text (new_message : types.Content) : string :=
  match types.parts new_message with
  | Some (p :: _) => default "" (types.text p)
  | _ => ""
  end.

Section PipelineRunner.

(** The text-generation capability, an external collaborator: an opaque
    synchronous function from the stage and its prompt to text. *)
Variable generate : LlmAgent → Prompt → string.

(** Modelled from the spec: prompt construction of the pipeline runner,
    "substituting the instruction template with (a) the original query text
    (stage 1 only) and (b) the accumulated outputs of all previously
    executed stages, addressed by their declared output-keys". *)
Definition build_prompt (executed : list LlmAgent) (stage : LlmAgent)
    (query : string) (st : gmap string string) : Prompt :=
  {| p_instruction := instruction stage;
     p_query := match executed with [] => Some query | _ => None end;
     p_outputs := omap (λ prev, pair (output_key prev) <$> st !! output_key prev) executed |}.

(** Modelled from the spec: the stage loop of the pipeline runner. "For
    each stage: build its prompt ...; invoke the stage's underlying
    text-generation capability with that prompt; store the returned text
    under the stage's output-key in the session's state; continue to the
    next stage." *)
Fixpoint run_stages (key : SessionKey) (query : string)
    (executed pending : list LlmAgent) (store : InMemorySessionService)
  : list StageStep :=
  match pending with
  | [] => []
  | stage :: rest =>
      let prompt := build_prompt executed stage query (session_state key store) in
      let text := generate stage prompt in
      let store' := alter (record_output (output_key stage) text) key store in
      {| step_stage := stage; step_prompt := prompt;
         step_text := text; step_store := store' |}
      :: run_stages key query (executed ++ [stage]) rest store'
  end.

(** Modelled from the spec: the framework's event for a finished stage;
    the stage's returned text reaches the caller as that stage's
    final-response event. *)
Definition stage_event (step : StageStep) : Event :=
  {| author := name (step_stage step);
     content := Some {| types.role := "model";
                        types.parts := Some [ {| types.text := Some (step_text step) |} ] |};
     final_response := true |}.

(** Modelled from the spec: the steps of one run of the framework's
    runner, "the ordered stage list" executed on the session of the given
    user and id. *)
Definition Runner_steps (runner : Runner) (user sid : string)
    (new_message : types.Content) (store : InMemorySessionService) : list StageStep :=
  run_stages (runner_app_name runner, user, sid) (query_text new_message)
    [] (sub_agents (agent runner)) store.

(** Modelled from the spec: [run(session_id, query_text)] of the pipeline
    runner. The session is looked up first; on a session the store has a
    record of, the ordered stage list is executed. Without a record the
    lookup fails: no stage is executed and no event is yielded. *)
Definition Runner_run : RunnerRun := λ runner user sid new_message store,
  match store !! (runner_app_name runner, user, sid) with
  | None => {| yields := []; raised := None; final := store |}
  | Some _ =>
      let steps := Runner_steps runner user sid new_message store in
      {| yields := (λ step, (stage_event step, step_store step)) <$> steps;
         raised := None;
         final := default store (step_store <$> last steps) |}
  end.

End PipelineRunner.

(** Whether [needle] occurs in [haystack]; used to read off which
    output-keys an instruction text refers to. *)
Fixpoint occurs_in (needle haystack : string) : bool :=
  String.prefix needle haystack
  || match haystack with
     | EmptyString => false
     | String _ rest => occurs_in needle rest
     end.

Definition reads_key (stage : LlmAgent) (key : string) : bool :=
  occurs_in key (instruction stage).

End Adk.

Import Adk.

(** ** gradio.py *)

Module Gradio.

Definition APP_NAME := "code_assistant_app".
Definition USER_ID := "developer_user_01".
Definition GEMINI_MODEL := "gemini-2.0-flash-exp".

Definition code_understanding_agent : LlmAgent := {|
  name := "CodeUnderstandingAgent";
  model := GEMINI_MODEL;
  instruction := "You are a Code Understanding AI.
    Based on the user's coding request, formulate a clear understanding of:
    1. The programming task or problem they're trying to solve
    2. The language, framework, or technologies involved
    3. Any specific requirements or constraints
    
    If the user has provided code, analyze it to understand its purpose and structure.
    If the user is reporting an error, identify what they're trying to accomplish.
    
    Output a concise summary of the coding task and what the user needs help with.
    ";
  description := "Understands coding problems and requirements from user queries.";
  output_key := "coding_task_understanding";
  tools := [google_search]
|}.

Definition research_agent : LlmAgent := {|
  name := "ResearchAgent";
  model := GEMINI_MODEL;
  instruction := "You are a Coding Research AI.
    Take the coding task understanding from the session state under the key 'coding_task_understanding'.
    
    Formulate 2-3 specific search queries to find:
    1. Official documentation relevant to the task
    2. Code examples solving similar problems
    3. Common issues or errors related to this task and their solutions
    
    Perform Google searches using these queries and collect the most relevant information.
    Focus on recent, authoritative sources like official documentation, GitHub repositories, Stack Overflow answers, and reputable coding blogs.
    
    Organize this information clearly, including:
    - Links to key documentation
    - Code snippets that demonstrate solutions
    - Explanations of common pitfalls or best practices
    ";
  description := "Researches coding solutions and best practices.";
  output_key := "coding_research";
  tools := [google_search]
|}.

Definition code_generation_agent : LlmAgent := {|
  name := "CodeGenerationAgent";
  model := GEMINI_MODEL;
  instruction := "You are a Code Generation and Debugging AI.
    Review the coding task understanding and research from the session state keys 'coding_task_understanding' and 'coding_research'.
    
    Based on this information:
    
    1. IF THE USER NEEDS NEW CODE:
       - Generate well-structured, efficient code that solves their problem
       - Include clear comments explaining key parts of the code
       - Follow best practices for the language/framework
       - Handle potential edge cases and errors
    
    2. IF THE USER HAS CODE WITH ERRORS:
       - Identify the likely causes of the error
       - Provide fixed code with corrections clearly marked
       - Explain what was causing the error and why the fix works
    
    3. IF THE USER WANTS TO IMPROVE EXISTING CODE:
       - Suggest optimizations for performance, readability, or maintainability
       - Provide refactored code examples
       - Explain the benefits of the improvements
    
    Output complete, executable code snippets that directly address the user's needs.
    ";
  description := "Generates code solutions or provides debugging fixes.";
  output_key := "code_solution";
  tools := []
|}.

Definition explanation_agent : LlmAgent := {|
  name := "ExplanationAgent";
  model := GEMINI_MODEL;
  instruction := "You are a Code Explanation AI.
    Review the coding task understanding, research, and solution from the session state.
    
    Create a comprehensive but concise explanation that includes:
    
    1. SOLUTION OVERVIEW:
       - Summarize the approach taken to solve the problem
       - Explain why this approach is appropriate
    
    2. CODE WALKTHROUGH:
       - Break down how the key parts of the code work
       - Highlight important functions, methods, or patterns used
    
    3. LEARNING RESOURCES:
       - Suggest specific documentation or tutorials for further learning
       - Point out related concepts the user might want to explore
    
    4. NEXT STEPS:
       - Suggest how the user might extend or improve the solution
       - Mention potential edge cases or considerations for production use
    
    Make your explanation educational and helpful, assuming the user wants to understand not just what the solution is, but why it works and how they can learn from it.
    
    Format your response using Markdown for better readability, with code blocks for all code examples.
    ";
  description := "Provides clear explanations of code solutions and concepts.";
  output_key := "code_explanation";
  tools := []
|}.

Definition root_agent : SequentialAgent := {|
  seq_name := "CodeAssistantAgent";
  sub_agents := [code_understanding_agent; research_agent;
                 code_generation_agent; explanation_agent];
  seq_description := "A comprehensive code assistant that helps with understanding problems, researching solutions, generating code, and explaining concepts."
|}.

(** The module-level state of [gradio.py]: the dictionary [user_sessions],
    the store behind [session_service], and how many UUIDs have been drawn
    so far. *)
Record World := {
  user_sessions : gmap string string;
  session_service : InMemorySessionService;
  uuid_draws : nat
}.

(** The state right after the module has been loaded. *)
Definition initial_world : World :=
  {| user_sessions := ∅; session_service := ∅; uuid_draws := 0 |}.

Definition FALLBACK : string :=
  "I encountered an issue processing your request. Please try again or start a new session.".

(** [not final_response] for a value that is None or a str. *)
Definition not_ (v : option string) : bool :=
  match v with
  | None => true
  | Some s => bool_decide (s = "")
  end.

(** Line 163: the runner built for every query. *)
Definition runner : Runner := {| agent := root_agent; runner_app_name := APP_NAME |}.

Section Frontend.

(** [uuid4 n] is the text of the [n]-th UUID drawn by [uuid.uuid4()]. *)
Variable uuid4 : nat → string.

(** [runner.run], supplied by the framework. *)
Variable run : RunnerRun.

Definition get_session_id (user_identifier : string) (w : World) : string * World :=
  match user_sessions w !! user_identifier with
  | None =>
      let sid := "session_" +:+ uuid4 (uuid_draws w) in
      (sid, {| user_sessions := <[user_identifier := sid]> (user_sessions w);
               session_service := session_service w;
               uuid_draws := S (uuid_draws w) |})
  | Some sid => (sid, w)
  end.

Definition new_session (user_identifier : string) (w : World) : string * World :=
  let session_id := "session_" +:+ uuid4 (uuid_draws w) in
  let store := snd (create_session APP_NAME user_identifier session_id (session_service w)) in
  ("Created new session: " +:+ session_id,
   {| user_sessions := <[user_identifier := session_id]> (user_sessions w);
      session_service := store;
      uuid_draws := S (uuid_draws w) |}).

(** Lines 156-160, under the source's comment "Ensure a session exists for
    this user": the try/except around the session lookup. The variable
    [session] holds what the lookup returned, which may be None, or the
    record created in the handler. *)
Definition ensure_session (user_identifier session_id : string)
    (store : InMemorySessionService) : option Session * InMemorySessionService :=
  match get_session APP_NAME user_identifier session_id store with
  | inr session => (session, store)
  | inl _ =>
      let '(session, store') := create_session APP_NAME user_identifier session_id store in
      (Some session, store')
  end.

(** Lines 170-173: the loop over the events of the run. The generator is
    abandoned when the loop body raises, so the store is then the one of
    the event being processed. *)
Fixpoint last_final_response (events : list (Event * InMemorySessionService))
    (raised : option Exception) (final : InMemorySessionService)
    (final_response : option string)
  : (Exception + option string) * InMemorySessionService :=
  match events with
  | [] =>
      match raised with
      | Some e => (inl e, final)
      | None => (inr final_response, final)
      end
  | (event, store) :: rest =>
      if is_final_response event then
        match content_parts_0_text event with
        | inl e => (inl e, store)
        | inr t => last_final_response rest raised final t
        end
      else last_final_response rest raised final final_response
  end.

(** Lines 162-178: run the agent on the session and pick the response. *)
Definition respond (user_query user_identifier session_id : string)
    (store : InMemorySessionService) : (Exception + string) * InMemorySessionService :=
  let content := {| types.role := "user";
                    types.parts := Some [ {| types.text := Some user_query |} ] |} in
  let events := run runner user_identifier session_id content store in
  match last_final_response (yields events) (raised events) (final events) (Some "") with
  | (inl e, store') => (inl e, store')
  | (inr final_response, store') =>
      (inr (if not_ final_response then FALLBACK else default "" final_response), store')
  end.

(** Lines 152-178. Both front-end callers pass [user_identifier]; a caller
    that omits it passes "default_user". *)
Definition process_code_query (user_query user_identifier : string) (w : World)
  : (Exception + string) * World :=
  let '(session_id, w1) := get_session_id user_identifier w in
  let '(_, store) := ensure_session user_identifier session_id (session_service w1) in
  let '(result, store') := respond user_query user_identifier session_id store in
  (result, {| user_sessions := user_sessions w1;
              session_service := store';
              uuid_draws := uuid_draws w1 |}).

(** The run that [process_code_query] performs. *)
Definition query_run (user_query user_identifier : string) (w : World) : Run :=
  let '(session_id, w1) := get_session_id user_identifier w in
  let '(_, store) := ensure_session user_identifier session_id (session_service w1) in
  run runner user_identifier session_id
    {| types.role := "user"; types.parts := Some [ {| types.text := Some user_query |} ] |}
    store.

(** The actions the web form offers, and the worlds they lead to. *)
Inductive Action :=
  | Submit (user_query user_identifier : string)
  | StartNewSession (user_identifier : string).

Definition perform (a : Action) (w : World) : World :=
  match a with
  | Submit q u => snd (process_code_query q u w)
  | StartNewSession u => snd (new_session u w)
  end.

Definition after (actions : list Action) : World :=
  foldl (λ w a, perform a w) initial_world actions.

(** Session ids handed out so far. *)
Definition issued (w : World) (sid : string) : Prop :=
  ∃ n, n < uuid_draws w ∧ sid = "session_" +:+ uuid4 n.

(** What every world the front end can be in satisfies: recorded ids have
    been issued, no two users share one, and every record of the store is
    filed under an issued id. *)
Record consistent (w : World) : Prop := {
  sessions_issued : ∀ u sid, user_sessions w !! u = Some sid → issued w sid;
  sessions_distinct : ∀ u1 u2 sid,
    user_sessions w !! u1 = Some sid → user_sessions w !! u2 = Some sid → u1 = u2;
  records_issued : ∀ app u sid,
    is_Some (session_service w !! (app, u, sid)) → issued w sid
}.

End Frontend.

End Gradio.

(** ** multi_tool_agent/agent.py *)

Module MultiToolAgent.

Definition APP_NAME := "code_assistant_app".
Definition USER_ID := "developer_user_01".
Definition SESSION_ID := "coding_session_01".
Definition GEMINI_MODEL := "gemini-2.0-flash-exp".

Definition code_understanding_agent : LlmAgent := {|
  name := "CodeUnderstandingAgent";
  model := GEMINI_MODEL;
  instruction := "You are a Code Understanding AI.
    Based on the user's coding request, formulate a clear understanding of:
    1. The programming task or problem they're trying to solve
    2. The language, framework, or technologies involved
    3. Any specific requirements or constraints
    
    If the user has provided code, analyze it to understand its purpose and structure.
    If the user is reporting an error, identify what they're trying to accomplish.
    
    Output a concise summary of the coding task and what the user needs help with.
    ";
  description := "Understands coding problems and requirements from user queries.";
  output_key := "coding_task_understanding";
  tools := [google_search]
|}.

Definition research_agent : LlmAgent := {|
  name := "ResearchAgent";
  model := GEMINI_MODEL;
  instruction := "You are a Coding Research AI.
    Take the coding task understanding from the session state under the key 'coding_task_understanding'.
    
    Formulate 2-3 specific search queries to find:
    1. Official documentation relevant to the task
    2. Code examples solving similar problems
    3. Common issues or errors related to this task and their solutions
    
    Perform Google searches using these queries and collect the most relevant information.
    Focus on recent, authoritative sources like official documentation, GitHub repositories, Stack Overflow answers, and reputable coding blogs.
    
    Organize this information clearly, including:
    - Links to key documentation
    - Code snippets that demonstrate solutions
    - Explanations of common pitfalls or best practices
    ";
  description := "Researches coding solutions and best practices.";
  output_key := "coding_research";
  tools := [google_search]
|}.

Definition code_generation_agent : LlmAgent := {|
  name := "CodeGenerationAgent";
  model := GEMINI_MODEL;
  instruction := "You are a Code Generation and Debugging AI.
    Review the coding task understanding and research from the session state keys 'coding_task_understanding' and 'coding_research'.
    
    Based on this information:
    
    1. IF THE USER NEEDS NEW CODE:
       - Generate well-structured, efficient code that solves their problem
       - Include clear comments explaining key parts of the code
       - Follow best practices for the language/framework
       - Handle potential edge cases and errors
    
    2. IF THE USER HAS CODE WITH ERRORS:
       - Identify the likely causes of the error
       - Provide fixed code with corrections clearly marked
       - Explain what was causing the error and why the fix works
    
    3. IF THE USER WANTS TO IMPROVE EXISTING CODE:
       - Suggest optimizations for performance, readability, or maintainability
       - Provide refactored code examples
       - Explain the benefits of the improvements
    
    Output complete, executable code snippets that directly address the user's needs.
    ";
  description := "Generates code solutions or provides debugging fixes.";
  output_key := "code_solution";
  tools := []
|}.

Definition explanation_agent : LlmAgent := {|
  name := "ExplanationAgent";
  model := GEMINI_MODEL;
  instruction := "You are a Code Explanation AI.
    Review the coding task understanding, research, and solution from the session state.
    
    Create a comprehensive but concise explanation that includes:
    
    1. SOLUTION OVERVIEW:
       - Summarize the approach taken to solve the problem
       - Explain why this approach is appropriate
    
    2. CODE WALKTHROUGH:
       - Break down how the key parts of the code work
       - Highlight important functions, methods, or patterns used
    
    3. LEARNING RESOURCES:
       - Suggest specific documentation or tutorials for further learning
       - Point out related concepts the user might want to explore
    
    4. NEXT STEPS:
       - Suggest how the user might extend or improve the solution
       - Mention potential edge cases or considerations for production use
    
    Make your explanation educational and helpful, assuming the user wants to understand not just what the solution is, but why it works and how they can learn from it.
    ";
  description := "Provides clear explanations of code solutions and concepts.";
  output_key := "code_explanation";
  tools := []
|}.

Definition root_agent : SequentialAgent := {|
  seq_name := "CodeAssistantAgent";
  sub_agents := [code_understanding_agent; research_agent;
                 code_generation_agent; explanation_agent];
  seq_description := "A comprehensive code assistant that helps with understanding problems, researching solutions, generating code, and explaining concepts."
|}.

(** Line 137: the one session of the console front end, created when the
    module is loaded. *)
Definition initial_store : InMemorySessionService :=
  snd (create_session APP_NAME USER_ID SESSION_ID ∅).

(** What [print] writes for a value that is None or a str. *)
Definition str (v : option string) : string :=
  match v with
  | None => "None"
  | Some s => s
  end.

Definition newline : string := String "010"%char "".

(** Line 138. *)
Definition runner : Runner := {| agent := root_agent; runner_app_name := APP_NAME |}.

Section Console.

(** [runner.run], supplied by the framework. *)
Variable run : RunnerRun.

(** Lines 153-157: the loop over the events of the run. [stdout] collects
    the argument of every [print] call, oldest first. *)
Fixpoint print_final_responses (events : list (Event * InMemorySessionService))
    (raised : option Exception) (final : InMemorySessionService)
    (stdout : list string)
  : (Exception + unit) * list string * InMemorySessionService :=
  match events with
  | [] =>
      match raised with
      | Some e => (inl e, stdout, final)
      | None => (inr (), stdout, final)
      end
  | (event, store) :: rest =>
      if is_final_response event then
        match content_parts_0_text event with
        | inl e => (inl e, stdout, store)
        | inr final_response =>
            print_final_responses rest raised final
              (stdout ++ [newline +:+ "Code Assistant Response:"; str final_response])
        end
      else print_final_responses rest raised final stdout
  end.

(** Returns the function's result ([inr ()] for Python's None), what it
    printed and the store it leaves. *)
Definition call_agent (query : string) (store : InMemorySessionService)
  : (Exception + unit) * list string * InMemorySessionService :=
  let stdout := [newline +:+ "User Query: " +:+ query] in
  let content := {| types.role := "user";
                    types.parts := Some [ {| types.text := Some query |} ] |} in
  let events := run runner USER_ID SESSION_ID content store in
  print_final_responses (yields events) (raised events) (final events) stdout.

End Console.

(** What one pass of the loop body prints for an event. *)
Definition printed (y : Event * InMemorySessionService) : list string :=
  if is_final_response y.1 then
    match content_parts_0_text y.1 with
    | inr final_response => [newline +:+ "Code Assistant Response:"; str final_response]
    | inl _ => []
    end
  else [].

End MultiToolAgent.

(** ** Both files at once *)

(** The names of the four stages, in pipeline order. *)
Definition stage_names : list string :=
  ["CodeUnderstandingAgent"; "ResearchAgent"; "CodeGenerationAgent"; "ExplanationAgent"].

(** The root agents of [gradio.py] and of [multi_tool_agent/agent.py]. *)
Definition pipelines : list SequentialAgent :=
  [Gradio.root_agent; MultiToolAgent.root_agent].

(** ** Sample events and runs *)

Module Samples.

(** A final or intermediate event whose first part carries [text]. *)
Definition text_event (author : string) (text : option string) (final : bool) : Event :=
  {| author := author;
     content := Some {| types.role := "model"; types.parts := Some [ {| types.text := text |} ] |};
     final_response := final |}.

(** A final-response event without content. *)
Definition bare_event (author : string) : Event :=
  {| author := author; content := None; final_response := true |}.

(** A run that yields the given events, then ends or raises, and leaves
    the store as it found it. *)
Definition replay (events : list Event) (raised : option Exception) : RunnerRun :=
  λ _ _ _ _ store,
    {| yields := (λ event, (event, store)) <$> events;
       raised := raised;
       final := store |}.

End Samples.

(** The user on whose behalf an action of the web form is performed. *)
Definition action_user (a : Gradio.Action) : string :=
  match a with
  | Gradio.Submit _ user_identifier => user_identifier
  | Gradio.StartNewSession user_identifier => user_identifier
  end.

(** * Properties *)

(** ** The stage loop of the pipeline runner *)

Section PipelineRunnerFacts.

Variable generate : LlmAgent → Prompt → string.

Lemma run_stages_stages key query executed pending store :
  step_stage <$> run_stages generate key query executed pending store = pending.
Proof.
  revert executed store.
  induction pending as [|stage rest IH]; intros executed store; simpl; [done|].
  by rewrite IH.
Qed.

Lemma run_stages_length key query executed pending store :
  length (run_stages generate key query executed pending store) = length pending.
Proof.
  rewrite <- (run_stages_stages key query executed pending store) at 2.
  by rewrite length_fmap.
Qed.

(** The stages that had run before the [i]-th step of a run are [executed]
    followed by the first [i] pending ones, and the step's prompt is built
    from exactly those. *)
Lemma session_state_record key output text store :
  session_state key (alter (record_output output text) key store)
  = match store !! key with
    | Some _ => <[output := text]> (session_state key store)
    | None => session_state key store
    end.
Proof.
  unfold session_state. rewrite lookup_alter_eq.
  by destruct (store !! key).
Qed.

(** [P] is any property of the session state that holds when the run
    starts and survives the recording of a pending stage's output. *)
Lemma run_stages_lookup_inv (P : gmap string string → Prop)
    key query executed pending store i step :
  P (session_state key store) →
  (∀ st stage text, stage ∈ pending → P st → P (<[output_key stage := text]> st)) →
  run_stages generate key query executed pending store !! i = Some step →
  ∃ st, P st
        ∧ pending !! i = Some (step_stage step)
        ∧ step_prompt step
          = build_prompt (executed ++ take i pending) (step_stage step) query st
        ∧ step_text step = generate (step_stage step) (step_prompt step).
Proof.
  revert executed store i.
  induction pending as [|stage rest IH]; intros executed store i HP Hkeep; simpl; [done|].
  destruct i as [|i]; simpl.
  - intros [= <-]; simpl. rewrite app_nil_r. eauto.
  - intros Hstep. apply IH in Hstep as (st & HPst & Hi & Hp & Ht).
    + exists st. by rewrite <- app_assoc in Hp.
    + rewrite session_state_record. destruct (store !! key); [|done].
      apply Hkeep; [set_solver|done].
    + intros st stage' text Hin. apply Hkeep. set_solver.
Qed.

Lemma run_stages_lookup key query executed pending store i step :
  run_stages generate key query executed pending store !! i = Some step →
  ∃ st, pending !! i = Some (step_stage step)
        ∧ step_prompt step
          = build_prompt (executed ++ take i pending) (step_stage step) query st
        ∧ step_text step = generate (step_stage step) (step_prompt step).
Proof.
  intros Hstep.
  destruct (run_stages_lookup_inv (λ _, True) _ _ _ _ _ _ _ I (λ _ _ _ _ _, I) Hstep)
    as (st & _ & H).
  eauto.
Qed.

(** A run only touches the record filed under its own key. *)
Lemma run_stages_frame key query executed pending store step key' :
  step ∈ run_stages generate key query executed pending store →
  key' ≠ key → step_store step !! key' = store !! key'.
Proof.
  revert executed store.
  induction pending as [|stage rest IH]; intros executed store; simpl.
  - by intros ?%elem_of_nil.
  - intros [->|Hin]%elem_of_cons Hne; simpl.
    + by rewrite lookup_alter_ne.
    + rewrite (IH _ _ Hin Hne). by rewrite lookup_alter_ne.
Qed.

(** ... and never removes or adds a record. *)
Lemma run_stages_is_Some key query executed pending store step key' :
  step ∈ run_stages generate key query executed pending store →
  is_Some (step_store step !! key') ↔ is_Some (store !! key').
Proof.
  revert executed store.
  induction pending as [|stage rest IH]; intros executed store; simpl.
  - by intros ?%elem_of_nil.
  - intros [->|Hin]%elem_of_cons; simpl.
    + rewrite lookup_alter. case_decide; [|done]. subst. by rewrite fmap_is_Some.
    + rewrite (IH _ _ Hin). rewrite lookup_alter.
      case_decide; [|done]. subst. by rewrite fmap_is_Some.
Qed.

End PipelineRunnerFacts.

(** ** The two pipelines *)

Lemma pipelines_stage_names root :
  root ∈ pipelines → name <$> sub_agents root = stage_names.
Proof.
  unfold pipelines. rewrite !elem_of_cons, elem_of_nil.
  by intros [->|[->|[]]].
Qed.

Section Handover.

Variable generate : LlmAgent → Prompt → string.

Lemma build_prompt_outputs executed stage query st prev text :
  prev ∈ executed → st !! output_key prev = Some text →
  (output_key prev, text) ∈ p_outputs (build_prompt executed stage query st).
Proof.
  intros Hin Hst. unfold build_prompt; simpl.
  apply list_elem_of_omap. exists prev. split; [done|]. by rewrite Hst.
Qed.

(** The prompt of a step holds the text of the step right before it, under
    that stage's output-key. *)
Lemma run_stages_handover key query executed pending store i prev next :
  is_Some (store !! key) →
  run_stages generate key query executed pending store !! i = Some prev →
  run_stages generate key query executed pending store !! S i = Some next →
  (output_key (step_stage prev), step_text prev) ∈ p_outputs (step_prompt next).
Proof.
  revert executed store i.
  induction pending as [|stage rest IH]; intros executed store i Hkey; simpl; [done|].
  assert (is_Some (alter (record_output (output_key stage)
            (generate stage (build_prompt executed stage query (session_state key store))))
            key store !! key)) as Hkey'.
  { rewrite lookup_alter_eq. by apply fmap_is_Some. }
  destruct i as [|i]; simpl.
  - intros [= <-]. destruct rest as [|stage2 rest]; simpl; [done|].
    intros [= <-]; simpl.
    apply (build_prompt_outputs _ stage2 query); [set_solver|].
    unfold session_state. rewrite lookup_alter_eq.
    destruct Hkey as [session ->]; simpl. by rewrite lookup_insert_eq.
  - intros Hprev Hnext. by eapply IH.
Qed.

(** The prompt of a step holds outputs of earlier steps only. *)
Lemma run_stages_outputs key query pending store i step k v :
  run_stages generate key query [] pending store !! i = Some step →
  (k, v) ∈ p_outputs (step_prompt step) →
  ∃ j prev, j < i ∧ pending !! j = Some prev ∧ output_key prev = k.
Proof.
  intros Hstep Hin.
  destruct (run_stages_lookup generate _ _ _ _ _ _ _ Hstep) as (st & _ & Hp & _).
  rewrite Hp in Hin; simpl in Hin.
  apply list_elem_of_omap in Hin as (prev & Hprev & Hkv).
  destruct (st !! output_key prev) as [text|]; simplify_eq/=.
  apply list_elem_of_lookup in Hprev as [j Hj].
  pose proof (lookup_lt_Some _ _ _ Hj) as Hlt.
  rewrite lookup_take_lt in Hj.
  - exists j, prev. split_and!; [|done..].
    rewrite length_take in Hlt. lia.
  - rewrite length_take in Hlt. lia.
Qed.

(** When the stages write to distinct output-keys, the prompt of a step
    holds the text of every earlier step, under that stage's output-key. *)
Lemma run_stages_available key query executed pending store j i prev next :
  is_Some (store !! key) →
  NoDup (output_key <$> pending) →
  j < i →
  run_stages generate key query executed pending store !! j = Some prev →
  run_stages generate key query executed pending store !! i = Some next →
  (output_key (step_stage prev), step_text prev) ∈ p_outputs (step_prompt next).
Proof.
  revert executed store j i.
  induction pending as [|stage rest IH]; intros executed store j i Hkey Hnodup Hlt;
    simpl; [done|].
  apply NoDup_cons in Hnodup as [Hfresh Hnodup].
  set (text := generate stage (build_prompt executed stage query (session_state key store))).
  set (store' := alter (record_output (output_key stage) text) key store).
  destruct i as [|i]; [lia|]. destruct j as [|j]; simpl.
  - intros [= <-] Hnext; simpl.
    apply (run_stages_lookup_inv generate (λ st, st !! output_key stage = Some text))
      in Hnext as (st & Hst & _ & -> & _).
    + apply build_prompt_outputs; [set_solver|done].
    + unfold store'. rewrite session_state_record.
      destruct Hkey as [session ->]. by rewrite lookup_insert_eq.
    + intros st stage' text' Hin Hst. rewrite lookup_insert_ne; [done|].
      intros Heq. apply Hfresh. rewrite <- Heq. by apply list_elem_of_fmap_2.
  - apply IH; [|done|lia].
    unfold store'. rewrite lookup_alter_eq. by apply fmap_is_Some.
Qed.

End Handover.

(** A run over an existing session executes the stages of the pipeline
    once each and in order, yields one final-response event per stage
    without raising, and hands every stage the text of the one before. *)
Lemma Runner_run_stages
    (generate : LlmAgent → Prompt → string) (root : SequentialAgent)
    (app user sid : string) (new_message : types.Content)
    (store : InMemorySessionService) :
  root ∈ pipelines →
  is_Some (store !! (app, user, sid)) →
  let runner := {| agent := root; runner_app_name := app |} in
  let steps := Runner_steps generate runner user sid new_message store in
  let events := Runner_run generate runner user sid new_message store in
  (name ∘ step_stage) <$> steps = stage_names
  ∧ raised events = None
  ∧ fst <$> yields events = stage_event <$> steps
  ∧ (author ∘ fst) <$> yields events = stage_names
  ∧ ∀ i prev next, steps !! i = Some prev → steps !! S i = Some next →
      (output_key (step_stage prev), step_text prev) ∈ p_outputs (step_prompt next).
Proof.
  intros Hroot Hkey runner steps events.
  assert ((name ∘ step_stage) <$> steps = stage_names) as Hnames.
  { unfold steps, Runner_steps. rewrite list_fmap_compose, run_stages_stages.
    by apply pipelines_stage_names. }
  assert (events = {| yields := (λ step, (stage_event step, step_store step)) <$> steps;
                      raised := None;
                      final := default store (step_store <$> last steps) |}) as ->.
  { unfold events, Runner_run; simpl. by destruct Hkey as [session ->]. }
  simpl. split_and!; [done|done| | |].
  - rewrite <- list_fmap_compose. by apply list_fmap_ext.
  - rewrite <- list_fmap_compose, <- Hnames. by apply list_fmap_ext.
  - intros i prev next. by apply run_stages_handover.
Qed.

Lemma pipelines_output_keys root :
  root ∈ pipelines →
  output_key <$> sub_agents root
  = ["coding_task_understanding"; "coding_research"; "code_solution"; "code_explanation"].
Proof.
  unfold pipelines. rewrite !elem_of_cons, elem_of_nil.
  by intros [->|[->|[]]].
Qed.

Lemma pipelines_output_keys_NoDup root :
  root ∈ pipelines → NoDup (output_key <$> sub_agents root).
Proof.
  intros Hroot. rewrite (pipelines_output_keys _ Hroot).
  apply (bool_decide_unpack _). by vm_compute.
Qed.

(** Which output-keys the instruction texts of the source mention: every
    stage mentions keys of earlier stages only. *)
Lemma pipelines_read_earlier root k j stage earlier :
  root ∈ pipelines →
  sub_agents root !! k = Some stage →
  sub_agents root !! j = Some earlier →
  reads_key stage (output_key earlier) = true →
  j < k.
Proof.
  unfold pipelines. rewrite !elem_of_cons, elem_of_nil.
  intros [->|[->|[]]] Hk Hj Hreads;
    (destruct k as [|[|[|[|k]]]]; simpl in Hk; [| | | |done]; injection Hk as <-);
    (destruct j as [|[|[|[|j]]]]; simpl in Hj; [| | | |done]; injection Hj as <-);
    first [lia | by vm_compute in Hreads].
Qed.

(** C3. The prompt of stage k reads only output-keys of stages 1..k-1.
    In the source, the instruction text of a stage mentions no output-key
    but those of earlier stages, and the instruction of the third stage,
    CodeGenerationAgent, mentions 'coding_task_understanding' and
    'coding_research' and not 'code_explanation'. In a run, the prompt of
    a stage holds outputs of earlier stages only; the prompt of the third
    stage holds the texts of the first two under their keys and nothing
    under 'code_explanation'. *)
Theorem stage_reads_only_earlier_keys (root : SequentialAgent) :
  root ∈ pipelines →
  (∀ k j stage earlier,
      sub_agents root !! k = Some stage → sub_agents root !! j = Some earlier →
      reads_key stage (output_key earlier) = true → j < k)
  ∧ (∃ stage3, sub_agents root !! 2 = Some stage3
       ∧ name stage3 = "CodeGenerationAgent"
       ∧ reads_key stage3 "coding_task_understanding" = true
       ∧ reads_key stage3 "coding_research" = true
       ∧ reads_key stage3 "code_explanation" = false)
  ∧ (∀ generate key query store i step k v,
      run_stages generate key query [] (sub_agents root) store !! i = Some step →
      (k, v) ∈ p_outputs (step_prompt step) →
      ∃ j earlier, j < i ∧ sub_agents root !! j = Some earlier ∧ output_key earlier = k)
  ∧ (∀ generate key query store step1 step2 step3,
      is_Some (store !! key) →
      run_stages generate key query [] (sub_agents root) store !! 0 = Some step1 →
      run_stages generate key query [] (sub_agents root) store !! 1 = Some step2 →
      run_stages generate key query [] (sub_agents root) store !! 2 = Some step3 →
      ("coding_task_understanding", step_text step1) ∈ p_outputs (step_prompt step3)
      ∧ ("coding_research", step_text step2) ∈ p_outputs (step_prompt step3)
      ∧ ∀ v, ("code_explanation", v) ∉ p_outputs (step_prompt step3)).
Proof.
  intros Hroot. split_and!.
  - intros k j stage earlier. by apply pipelines_read_earlier.
  - revert Hroot. unfold pipelines. rewrite !elem_of_cons, elem_of_nil.
    intros [->|[->|[]]]; eexists; (split; [reflexivity|]); by vm_compute.
  - intros generate key query store i step k v. apply run_stages_outputs.
  - intros generate key query store step1 step2 step3 Hkey H1 H2 H3.
    pose proof (pipelines_output_keys _ Hroot) as Hkeys.
    pose proof (pipelines_output_keys_NoDup _ Hroot) as Hnodup.
    assert (∀ i step, run_stages generate key query [] (sub_agents root) store !! i = Some step →
              output_key (step_stage step) = default "" (
                ["coding_task_understanding"; "coding_research"; "code_solution";
                 "code_explanation"] !! i)) as Hkey_of.
    { intros i step Hstep.
      destruct (run_stages_lookup generate _ _ _ _ _ _ _ Hstep) as (_ & Hi & _).
      rewrite <- Hkeys, list_lookup_fmap, Hi. done. }
    split_and!.
    + rewrite <- (Hkey_of 0 step1 H1) at 1.
      eapply (run_stages_available generate); [done|done| |done|done]. lia.
    + rewrite <- (Hkey_of 1 step2 H2) at 1.
      eapply (run_stages_available generate); [done|done| |done|done]. lia.
    + intros v Hin.
      destruct (run_stages_outputs generate _ _ _ _ _ _ _ _ H3 Hin)
        as (j & earlier & Hlt & Hj & Hk).
      assert (output_key <$> sub_agents root !! j = Some "code_explanation") as Habs.
      { by rewrite Hj; simpl; rewrite Hk. }
      rewrite <- list_lookup_fmap, Hkeys in Habs.
      by destruct j as [|[|j]]; [| |lia].
Qed.

Lemma stage_reads_only_earlier_keys_witness :
  reads_key Gradio.code_generation_agent "code_explanation" = false
  ∧ ¬ reads_key Gradio.research_agent (output_key Gradio.code_generation_agent) = true.
Proof.
  assert (Gradio.root_agent ∈ pipelines) as Hroot by (unfold pipelines; set_solver).
  destruct (stage_reads_only_earlier_keys Gradio.root_agent Hroot)
    as (Hearlier & (stage3 & Hthird & _ & _ & _ & Hnot) & _).
  split.
  - injection Hthird as <-. exact Hnot.
  - intros Hreads.
    pose proof (Hearlier 1 2 Gradio.research_agent Gradio.code_generation_agent
                  eq_refl eq_refl Hreads).
    lia.
Defined.

(** ** The session registry of gradio.py *)

Section Registry.

Variable uuid4 : nat → string.

Abbreviation get_session_id := (Gradio.get_session_id uuid4).
Abbreviation new_session := (Gradio.new_session uuid4).
Abbreviation issued := (Gradio.issued uuid4).
Abbreviation consistent := (Gradio.consistent uuid4).

Lemma get_session_id_known u sid w :
  Gradio.user_sessions w !! u = Some sid → get_session_id u w = (sid, w).
Proof. intros H. unfold Gradio.get_session_id. by rewrite H. Qed.

Lemma get_session_id_new u w :
  Gradio.user_sessions w !! u = None →
  get_session_id u w
  = ("session_" +:+ uuid4 (Gradio.uuid_draws w),
     {| Gradio.user_sessions :=
          <[u := "session_" +:+ uuid4 (Gradio.uuid_draws w)]> (Gradio.user_sessions w);
        Gradio.session_service := Gradio.session_service w;
        Gradio.uuid_draws := S (Gradio.uuid_draws w) |}).
Proof. intros H. unfold Gradio.get_session_id. by rewrite H. Qed.

(** After the call the user is recorded under the returned id. *)
Lemma get_session_id_recorded u w :
  Gradio.user_sessions (get_session_id u w).2 !! u = Some (get_session_id u w).1.
Proof.
  unfold Gradio.get_session_id.
  destruct (Gradio.user_sessions w !! u) as [sid|] eqn:H; simpl; [done|].
  by rewrite lookup_insert_eq.
Qed.

Lemma get_session_id_store u w :
  Gradio.session_service (get_session_id u w).2 = Gradio.session_service w.
Proof.
  unfold Gradio.get_session_id. by destruct (Gradio.user_sessions w !! u).
Qed.

Lemma issued_mono w w' sid :
  (Gradio.uuid_draws w ≤ Gradio.uuid_draws w')%nat → issued w sid → issued w' sid.
Proof. intros Hle (n & Hn & ->). exists n. split; [lia|done]. Qed.

Lemma issued_next w w' :
  Gradio.uuid_draws w' = S (Gradio.uuid_draws w) →
  issued w' ("session_" +:+ uuid4 (Gradio.uuid_draws w)).
Proof. intros H. exists (Gradio.uuid_draws w). split; [lia|done]. Qed.

Section Unique.

(** Distinct draws give distinct UUIDs. *)
Hypothesis uuid4_unique : Inj (=) (=) uuid4.

Lemma next_not_issued w :
  ¬ issued w ("session_" +:+ uuid4 (Gradio.uuid_draws w)).
Proof.
  intros (n & Hn & Heq). apply (inj (String.app "session_")) in Heq.
  apply uuid4_unique in Heq. lia.
Qed.

Lemma initial_world_consistent : consistent Gradio.initial_world.
Proof. by split; simpl; intros *; rewrite lookup_empty; [| |intros [? ?]]. Qed.

(** Recording an id that has just been drawn keeps the world consistent,
    whether or not a record is filed under it at the same time. *)
Lemma fresh_id_consistent u w store :
  consistent w →
  (∀ app u' sid, is_Some (store !! (app, u', sid)) →
     is_Some (Gradio.session_service w !! (app, u', sid))
     ∨ sid = "session_" +:+ uuid4 (Gradio.uuid_draws w)) →
  consistent
    {| Gradio.user_sessions :=
         <[u := "session_" +:+ uuid4 (Gradio.uuid_draws w)]> (Gradio.user_sessions w);
       Gradio.session_service := store;
       Gradio.uuid_draws := S (Gradio.uuid_draws w) |}.
Proof.
  intros [Hissued Hdistinct Hrecords] Hstore.
  pose proof (next_not_issued w) as Hfresh.
  split; simpl.
  - intros u' sid. rewrite lookup_insert. case_decide.
    + intros [= <-]. by apply issued_next.
    + intros H'%Hissued. eapply issued_mono; [|done]. simpl; lia.
  - intros u1 u2 sid. rewrite !lookup_insert.
    repeat case_decide; subst; try done.
    + intros [= <-] H'%Hissued. done.
    + intros H'%Hissued [= <-]. done.
    + apply Hdistinct.
  - intros app u' sid [H'| ->]%Hstore.
    + eapply issued_mono; [|by eapply Hrecords]. simpl; lia.
    + by apply issued_next.
Qed.

Lemma get_session_id_consistent u w :
  consistent w → consistent (get_session_id u w).2.
Proof.
  intros Hw. unfold Gradio.get_session_id.
  destruct (Gradio.user_sessions w !! u) as [sid|] eqn:H; simpl; [done|].
  apply fresh_id_consistent; [done|]. intros; by left.
Qed.

Lemma new_session_consistent u w :
  consistent w → consistent (new_session u w).2.
Proof.
  intros Hw. unfold Gradio.new_session; simpl.
  apply fresh_id_consistent; [done|].
  intros app u' sid. rewrite lookup_insert. case_decide; simplify_eq; by eauto.
Qed.

(** No user is recorded under, and no record is filed under, the id that
    will be drawn next. *)
Lemma next_unused w :
  consistent w →
  (∀ u, Gradio.user_sessions w !! u ≠ Some ("session_" +:+ uuid4 (Gradio.uuid_draws w)))
  ∧ (∀ app u, Gradio.session_service w
                !! (app, u, "session_" +:+ uuid4 (Gradio.uuid_draws w)) = None).
Proof.
  intros [Hissued _ Hrecords]. pose proof (next_not_issued w) as Hfresh. split.
  - intros u H%Hissued. done.
  - intros app u. apply eq_None_not_Some. intros H%Hrecords. done.
Qed.

(** C5. If the user already has a recorded session id, get_session_id
    returns it and leaves everything unchanged. Otherwise it draws a new
    id, one that was never issued before, that no user is recorded under
    and no record of the store is filed under, records the user under it
    and returns it. *)
Theorem get_session_id_spec (u : string) (w : Gradio.World) :
  (∀ sid, Gradio.user_sessions w !! u = Some sid → get_session_id u w = (sid, w))
  ∧ (Gradio.user_sessions w !! u = None →
     consistent w →
     let sid := (get_session_id u w).1 in
     let w' := (get_session_id u w).2 in
     ¬ issued w sid
     ∧ (∀ u', Gradio.user_sessions w !! u' ≠ Some sid)
     ∧ (∀ app u', Gradio.session_service w !! (app, u', sid) = None)
     ∧ Gradio.user_sessions w' = <[u := sid]> (Gradio.user_sessions w)
     ∧ Gradio.user_sessions w' !! u = Some sid
     ∧ Gradio.session_service w' = Gradio.session_service w).
Proof.
  split; [intros sid; apply get_session_id_known|].
  intros Hnew Hw. rewrite (get_session_id_new _ _ Hnew); simpl.
  destruct (next_unused w Hw) as [Husers Hrecords].
  split_and!; [apply next_not_issued|done|done|done|by rewrite lookup_insert_eq|done].
Qed.


(** C6. new_session always draws a new id, records the user under it in
    place of whatever was recorded before, and files an empty record under
    it. Called twice in a row for the same user it gives two distinct ids;
    and whatever has been accumulated under an id the user was recorded
    under, after new_session the user resolves to another id, whose record
    is empty. *)
Theorem new_session_twice (u : string) (w : Gradio.World) :
  let sid1 := "session_" +:+ uuid4 (Gradio.uuid_draws w) in
  let sid2 := "session_" +:+ uuid4 (S (Gradio.uuid_draws w)) in
  let w1 := (new_session u w).2 in
  let w2 := (new_session u w1).2 in
  (new_session u w).1 = "Created new session: " +:+ sid1
  ∧ (new_session u w1).1 = "Created new session: " +:+ sid2
  ∧ sid1 ≠ sid2
  ∧ Gradio.user_sessions w1 = <[u := sid1]> (Gradio.user_sessions w)
  ∧ Gradio.user_sessions w2 = <[u := sid2]> (Gradio.user_sessions w)
  ∧ Gradio.session_service w1 !! (Gradio.APP_NAME, u, sid1)
    = Some {| app_name := Gradio.APP_NAME; user_id := u; session_id := sid1; state := ∅ |}
  ∧ Gradio.session_service w2 !! (Gradio.APP_NAME, u, sid2)
    = Some {| app_name := Gradio.APP_NAME; user_id := u; session_id := sid2; state := ∅ |}
  ∧ get_session_id u w2 = (sid2, w2)
  ∧ (∀ w' old, Gradio.user_sessions w' !! u = Some old → issued w' old →
       let new := (get_session_id u (new_session u w').2).1 in
       new ≠ old
       ∧ Gradio.session_service (new_session u w').2 !! (Gradio.APP_NAME, u, new)
         = Some {| app_name := Gradio.APP_NAME; user_id := u; session_id := new; state := ∅ |}).
Proof.
  intros sid1 sid2 w1 w2.
  assert (sid1 ≠ sid2) as Hne.
  { unfold sid1, sid2. intros Heq%(inj (String.app "session_"))%uuid4_unique. lia. }
  split_and!; try done.
  - unfold w2, w1; simpl. by rewrite insert_insert_eq.
  - unfold w1; simpl. by rewrite lookup_insert_eq.
  - unfold w2; simpl. by rewrite lookup_insert_eq.
  - apply get_session_id_known. unfold w2; simpl. by rewrite lookup_insert_eq.
  - intros w' old Hold Hissued.
    rewrite (get_session_id_known u ("session_" +:+ uuid4 (Gradio.uuid_draws w')));
      simpl; [|by rewrite lookup_insert_eq].
    split; [|by rewrite lookup_insert_eq].
    intros <-. by apply (next_not_issued w').
Qed.

End Unique.

End Registry.

Lemma get_session_id_spec_witness :
  Gradio.get_session_id pretty "default_user" Gradio.initial_world
  = ("session_0",
     {| Gradio.user_sessions := {[ "default_user" := "session_0" ]};
        Gradio.session_service := ∅;
        Gradio.uuid_draws := 1 |})
  ∧ ¬ Gradio.issued pretty Gradio.initial_world "session_0".
Proof.
  destruct (get_session_id_spec pretty pretty_nat_inj "default_user" Gradio.initial_world)
    as [_ Hnew].
  specialize (Hnew eq_refl (initial_world_consistent pretty)).
  split; [reflexivity|]. exact (proj1 Hnew).
Defined.


Lemma new_session_twice_witness :
  "session_0" ≠ "session_1"
  ∧ Gradio.get_session_id pretty "default_user"
      (Gradio.new_session pretty "default_user"
         (Gradio.new_session pretty "default_user" Gradio.initial_world).2).2
    = ("session_1",
       (Gradio.new_session pretty "default_user"
          (Gradio.new_session pretty "default_user" Gradio.initial_world).2).2).
Proof.
  destruct (new_session_twice pretty pretty_nat_inj "default_user" Gradio.initial_world)
    as (_ & _ & Hne & _ & _ & _ & _ & Hget & _).
  split; [exact Hne | exact Hget].
Defined.

(** ** process_code_query *)

Section Queries.

Variable uuid4 : nat → string.
Variable run : RunnerRun.

Abbreviation process_code_query := (Gradio.process_code_query uuid4 run).
Abbreviation query_run := (Gradio.query_run uuid4 run).
Abbreviation respond := (Gradio.respond run).

Lemma process_code_query_unfold q u w :
  process_code_query q u w
  = let sid := (Gradio.get_session_id uuid4 u w).1 in
    let w1 := (Gradio.get_session_id uuid4 u w).2 in
    let store := (Gradio.ensure_session u sid (Gradio.session_service w1)).2 in
    ((respond q u sid store).1,
     {| Gradio.user_sessions := Gradio.user_sessions w1;
        Gradio.session_service := (respond q u sid store).2;
        Gradio.uuid_draws := Gradio.uuid_draws w1 |}).
Proof.
  unfold Gradio.process_code_query.
  destruct (Gradio.get_session_id uuid4 u w) as [sid w1]. cbv zeta. cbn [fst snd].
  destruct (Gradio.ensure_session u sid (Gradio.session_service w1)) as [session store].
  cbn [fst snd]. by destruct (respond q u sid store).
Qed.

Lemma query_run_unfold q u w :
  query_run q u w
  = let sid := (Gradio.get_session_id uuid4 u w).1 in
    let w1 := (Gradio.get_session_id uuid4 u w).2 in
    run Gradio.runner u sid
      {| types.role := "user"; types.parts := Some [ {| types.text := Some q |} ] |}
      (Gradio.ensure_session u sid (Gradio.session_service w1)).2.
Proof.
  unfold Gradio.query_run.
  destruct (Gradio.get_session_id uuid4 u w) as [sid w1]. cbv zeta. cbn [fst snd].
  by destruct (Gradio.ensure_session u sid (Gradio.session_service w1)).
Qed.

(** The lookup does not raise, so the handler that creates the record is
    not entered: the lookup-or-create step returns what the store holds,
    which may be None, and leaves the store as it is. *)
Lemma ensure_session_lookup u sid store :
  Gradio.ensure_session u sid store = (store !! (Gradio.APP_NAME, u, sid), store).
Proof. done. Qed.

Lemma ensure_session_other u sid store key :
  key ≠ (Gradio.APP_NAME, u, sid) →
  (Gradio.ensure_session u sid store).2 !! key = store !! key.
Proof. intros _. by rewrite ensure_session_lookup. Qed.

(** When every final-response event carries a falsy text (None or the
    empty string), so does the variable final_response after the loop. *)
Lemma last_final_response_falsy events final init :
  Forall (λ y, is_final_response y.1 = true →
               ∃ t, content_parts_0_text y.1 = inr t ∧ Gradio.not_ t = true) events →
  Gradio.not_ init = true →
  ∃ v, Gradio.last_final_response events None final init = (inr v, final)
       ∧ Gradio.not_ v = true.
Proof.
  intros Hevents. revert init.
  induction Hevents as [|[event store] rest Hevent _ IH]; intros init Hinit; simpl.
  - eauto.
  - simpl in Hevent. destruct (is_final_response event); [|by apply IH].
    destruct (Hevent eq_refl) as (t & -> & Ht). by apply IH.
Qed.

(** The store the loop leaves is the one of an event it has seen or the
    one the run ends with. *)
Lemma last_final_response_store events raised final init :
  (Gradio.last_final_response events raised final init).2 = final
  ∨ (Gradio.last_final_response events raised final init).2 ∈ events.*2.
Proof.
  revert init. induction events as [|[event store] rest IH]; intros init; simpl.
  - left. by destruct raised.
  - destruct (is_final_response event).
    + destruct (content_parts_0_text event) as [e|t]; simpl.
      { right. apply elem_of_cons. by left. }
      destruct (IH t); [by left|right; apply elem_of_cons; by right].
    + destruct (IH init); [by left|right; apply elem_of_cons; by right].
Qed.

Lemma respond_store q u sid store :
  let events := run Gradio.runner u sid
      {| types.role := "user"; types.parts := Some [ {| types.text := Some q |} ] |} store in
  (respond q u sid store).2 = final events ∨ (respond q u sid store).2 ∈ (yields events).*2.
Proof.
  intros events. unfold Gradio.respond. fold events.
  pose proof (last_final_response_store (yields events) (raised events) (final events)
                (Some "")) as H.
  by destruct (Gradio.last_final_response _ _ _ _) as [[e|v] store'].
Qed.

Lemma FALLBACK_nonempty : Gradio.FALLBACK ≠ "".
Proof. done. Qed.

(** C1. If the run of a query ends normally and every final-response
    event of it carries the empty string (in particular if there is no
    final-response event at all), process_code_query returns the fixed
    fallback message, which is not the empty string. *)
Theorem process_code_query_fallback (q u : string) (w : Gradio.World) :
  raised (query_run q u w) = None →
  Forall (λ y, is_final_response y.1 = true → content_parts_0_text y.1 = inr (Some ""))
    (yields (query_run q u w)) →
  (process_code_query q u w).1
  = inr "I encountered an issue processing your request. Please try again or start a new session."
  ∧ (process_code_query q u w).1 ≠ inr "".
Proof.
  rewrite query_run_unfold, process_code_query_unfold. cbv zeta. cbn [fst snd].
  intros Hraised Hevents. unfold Gradio.respond.
  destruct (last_final_response_falsy _ (final (run Gradio.runner u
      (Gradio.get_session_id uuid4 u w).1
      {| types.role := "user"; types.parts := Some [ {| types.text := Some q |} ] |}
      (Gradio.ensure_session u (Gradio.get_session_id uuid4 u w).1
         (Gradio.session_service (Gradio.get_session_id uuid4 u w).2)).2)) (Some "")
      (Forall_impl _ _ _ Hevents (λ y Hy Hfinal, ex_intro _ (Some "") (conj (Hy Hfinal) eq_refl)))
      eq_refl) as (v & Hloop & Hv).
  rewrite Hraised, Hloop; simpl. rewrite Hv. by split.
Qed.

End Queries.

Lemma process_code_query_fallback_witness :
  let silent : RunnerRun := λ _ _ _ _ store,
    {| yields := [({| author := "ExplanationAgent";
                      content := Some {| types.role := "model";
                                         types.parts := Some [ {| types.text := Some "" |} ] |};
                      final_response := true |}, store)];
       raised := None;
       final := store |} in
  (Gradio.process_code_query pretty silent "hello" "default_user" Gradio.initial_world).1
  = inr "I encountered an issue processing your request. Please try again or start a new session.".
Proof.
  intros silent.
  refine (proj1 (process_code_query_fallback pretty silent
                   "hello" "default_user" Gradio.initial_world _ _)).
  - reflexivity.
  - apply Forall_cons. split; [|apply Forall_nil_2]. intros _. reflexivity.
Defined.

(** ** The front ends on the pipeline runner *)

Section OnPipelineRunner.

Variable generate : LlmAgent → Prompt → string.

Lemma Runner_run_local : local_run (Runner_run generate).
Proof.
  intros runner user sid new_message store key Hne. unfold Runner_run.
  destruct (store !! (runner_app_name runner, user, sid)); simpl; [|by split].
  split.
  - apply Forall_fmap, Forall_forall. intros step Hin; simpl.
    by eapply run_stages_frame.
  - destruct (last _) as [step|] eqn:Hlast; simpl; [|done].
    apply last_Some_elem_of in Hlast. by eapply run_stages_frame.
Qed.

(** Every step leaves the record of the session in place, with the same
    identity and with the step's text under the stage's output-key. *)
Lemma run_stages_recorded key query executed pending store session0 step :
  store !! key = Some session0 →
  step ∈ run_stages generate key query executed pending store →
  ∃ session, step_store step !! key = Some session
             ∧ app_name session = app_name session0
             ∧ user_id session = user_id session0
             ∧ session_id session = session_id session0
             ∧ state session !! output_key (step_stage step) = Some (step_text step).
Proof.
  revert executed store session0.
  induction pending as [|stage rest IH]; intros executed store session0 Hkey; simpl.
  - by intros ?%elem_of_nil.
  - intros [->|Hin]%elem_of_cons; simpl.
    + rewrite lookup_alter_eq, Hkey; simpl. eexists. split; [done|]; simpl.
      by rewrite lookup_insert_eq.
    + eapply IH in Hin as (session & ? & ? & ? & ? & ?);
        [|by rewrite lookup_alter_eq, Hkey]. simpl in *.
      by exists session.
Qed.

(** The loop of [process_code_query] over the events of the stages ends
    with the text of the last stage. *)
Lemma last_final_response_stages steps final init :
  Gradio.last_final_response ((λ step, (stage_event step, step_store step)) <$> steps)
    None final init
  = (inr (from_option (λ step, Some (step_text step)) init (last steps)), final).
Proof.
  revert init. induction steps as [|step rest IH]; intros init; simpl; [done|].
  rewrite IH, last_cons. by destruct (last rest).
Qed.

(** On an existing session the run ends with the step of the last stage,
    ExplanationAgent, and [respond] returns that step's text, or the
    fallback message when the text is empty. *)
Lemma respond_pipeline q u sid store :
  is_Some (store !! (Gradio.APP_NAME, u, sid)) →
  ∃ step,
    last (Runner_steps generate Gradio.runner u sid
            {| types.role := "user"; types.parts := Some [ {| types.text := Some q |} ] |}
            store) = Some step
    ∧ step_stage step = Gradio.explanation_agent
    ∧ step_text step = generate Gradio.explanation_agent (step_prompt step)
    ∧ Gradio.respond (Runner_run generate) q u sid store
      = (inr (if bool_decide (step_text step = "") then Gradio.FALLBACK else step_text step),
         step_store step).
Proof.
  intros [session Hkey].
  set (content := {| types.role := "user"; types.parts := Some [ {| types.text := Some q |} ] |}).
  set (steps := Runner_steps generate Gradio.runner u sid content store).
  assert (length steps = 4) as Hlen by apply run_stages_length.
  destruct (last steps) as [step|] eqn:Hlast;
    [|by apply last_None in Hlast; rewrite Hlast in Hlen].
  exists step.
  assert (steps !! 3 = Some step) as Hlookup by (by rewrite last_lookup, Hlen in Hlast).
  destruct (run_stages_lookup generate _ _ _ _ _ _ _ Hlookup) as (st & Hstage & _ & Htext).
  injection Hstage as Hstage.
  split_and!; [done|done|by rewrite Htext, <- Hstage|].
  unfold Gradio.respond, Runner_run.
  change (runner_app_name Gradio.runner) with Gradio.APP_NAME.
  rewrite Hkey. cbn [yields raised final]. fold content steps.
  rewrite last_final_response_stages, Hlast. cbn [from_option fmap option_fmap option_map default].
  unfold Gradio.not_. by destruct (bool_decide (step_text step = "")).
Qed.

(** On a session the store has no record of, the run executes no stage
    and yields nothing: [respond] returns the fallback message and leaves
    the store as it is. *)
Lemma respond_pipeline_missing q u sid store :
  store !! (Gradio.APP_NAME, u, sid) = None →
  Runner_run generate Gradio.runner u sid
    {| types.role := "user"; types.parts := Some [ {| types.text := Some q |} ] |} store
  = {| yields := []; raised := None; final := store |}
  ∧ Gradio.respond (Runner_run generate) q u sid store = (inr Gradio.FALLBACK, store).
Proof.
  intros Hmiss. unfold Gradio.respond, Runner_run.
  change (runner_app_name Gradio.runner) with Gradio.APP_NAME.
  by rewrite Hmiss.
Qed.

(** When text generation returns the empty string for every stage,
    [process_code_query] returns the fallback message. *)
Lemma empty_generation_fallback uuid4 q u w :
  (∀ stage prompt, generate stage prompt = "") →
  (Gradio.process_code_query uuid4 (Runner_run generate) q u w).1 = inr Gradio.FALLBACK.
Proof.
  intros Hempty. rewrite process_code_query_unfold. cbv zeta.
  rewrite ensure_session_lookup. cbn [fst snd].
  destruct (Gradio.session_service (Gradio.get_session_id uuid4 u w).2
              !! (Gradio.APP_NAME, u, (Gradio.get_session_id uuid4 u w).1))
    as [session|] eqn:Hkey.
  - destruct (respond_pipeline q u _ _ (mk_is_Some _ _ Hkey))
      as (step & _ & _ & Htext & ->); simpl.
    by rewrite Htext, Hempty.
  - by rewrite (proj2 (respond_pipeline_missing q u _ _ Hkey)).
Qed.

(** On a session the store has a record of, [process_code_query] on the
    pipeline runner returns the text of the last stage, or the fallback
    message when that text is empty, and leaves the record in place, with
    that text under 'code_explanation'. *)
Lemma process_code_query_on_record uuid4 q u w session0 :
  let sid := (Gradio.get_session_id uuid4 u w).1 in
  let result := Gradio.process_code_query uuid4 (Runner_run generate) q u w in
  Gradio.session_service w !! (Gradio.APP_NAME, u, sid) = Some session0 →
  ∃ step session,
    step_text step = generate Gradio.explanation_agent (step_prompt step)
    ∧ result.1 = inr (if bool_decide (step_text step = "")
                      then Gradio.FALLBACK else step_text step)
    ∧ Gradio.session_service result.2 !! (Gradio.APP_NAME, u, sid) = Some session
    ∧ app_name session = app_name session0
    ∧ user_id session = user_id session0
    ∧ session_id session = session_id session0
    ∧ state session !! "code_explanation" = Some (step_text step).
Proof.
  intros sid result Hsession0. unfold result.
  rewrite process_code_query_unfold. cbv zeta.
  rewrite ensure_session_lookup, get_session_id_store. cbn [fst snd]. fold sid.
  destruct (respond_pipeline q u sid _ (mk_is_Some _ _ Hsession0))
    as (step & Hlast & Hstage & Htext & ->); simpl.
  apply last_Some_elem_of in Hlast.
  destruct (run_stages_recorded _ _ _ _ _ _ _ Hsession0 Hlast)
    as (session & ? & ? & ? & ? & Hstate).
  rewrite Hstage in Hstate; simpl in Hstate.
  by exists step, session.
Qed.

End OnPipelineRunner.

(** C2. Not every run of the web front end executes the four stages.
    When the store has no record for the session id resolved for the user,
    process_code_query files none, and the run of the query executes no
    stage: it yields no event at all, so the stages are not run once each,
    and the call returns the fallback message. *)
Theorem query_on_missing_session_runs_no_stage
    (generate : LlmAgent → Prompt → string) (uuid4 : nat → string)
    (q u : string) (w : Gradio.World) :
  let sid := (Gradio.get_session_id uuid4 u w).1 in
  let events := Gradio.query_run uuid4 (Runner_run generate) q u w in
  Gradio.session_service w !! (Gradio.APP_NAME, u, sid) = None →
  yields events = []
  ∧ raised events = None
  ∧ (author ∘ fst) <$> yields events ≠ stage_names
  ∧ (Gradio.process_code_query uuid4 (Runner_run generate) q u w).1 = inr Gradio.FALLBACK.
Proof.
  intros sid events Hmiss.
  assert (events = {| yields := []; raised := None; final := Gradio.session_service w |})
    as Hevents.
  { unfold events. rewrite query_run_unfold. cbv zeta.
    rewrite ensure_session_lookup, get_session_id_store. cbn [fst snd]. fold sid.
    apply (respond_pipeline_missing generate q u sid _ Hmiss). }
  rewrite Hevents; simpl. split_and!; [done|done|done|].
  rewrite process_code_query_unfold. cbv zeta.
  rewrite ensure_session_lookup, get_session_id_store. cbn [fst snd]. fold sid.
  by rewrite (proj2 (respond_pipeline_missing generate q u sid _ Hmiss)).
Qed.

Lemma query_on_missing_session_runs_no_stage_witness :
  let generate := λ (stage : LlmAgent) (_ : Prompt), "stage:" +:+ name stage in
  yields (Gradio.query_run pretty (Runner_run generate) "hello" "default_user"
            Gradio.initial_world) = []
  ∧ (Gradio.process_code_query pretty (Runner_run generate) "hello" "default_user"
       Gradio.initial_world).1
    = inr "I encountered an issue processing your request. Please try again or start a new session.".
Proof.
  intros generate.
  destruct (query_on_missing_session_runs_no_stage generate pretty "hello" "default_user"
              Gradio.initial_world eq_refl) as (Hyields & _ & _ & Hresult).
  split; [exact Hyields | exact Hresult].
Defined.

(** ** Users and their sessions *)

Section Users.

Variable uuid4 : nat → string.
Variable run : RunnerRun.

Hypothesis run_local : local_run run.

(** A query touches no record but the one of the session it resolves. *)
Lemma process_code_query_other q u w key :
  key ≠ (Gradio.APP_NAME, u, (Gradio.get_session_id uuid4 u w).1) →
  Gradio.session_service (Gradio.process_code_query uuid4 run q u w).2 !! key
  = Gradio.session_service w !! key.
Proof.
  intros Hne. rewrite process_code_query_unfold. cbv zeta.
  cbn [snd Gradio.session_service].
  set (sid := (Gradio.get_session_id uuid4 u w).1) in *.
  set (store := (Gradio.ensure_session u sid
                   (Gradio.session_service (Gradio.get_session_id uuid4 u w).2)).2).
  assert (store !! key = Gradio.session_service w !! key) as <-.
  { unfold store. by rewrite ensure_session_other, get_session_id_store. }
  destruct (run_local Gradio.runner u sid
              {| types.role := "user"; types.parts := Some [ {| types.text := Some q |} ] |}
              store key Hne) as [Hyields Hfinal].
  destruct (respond_store run q u sid store) as [->| Hin]; [done|].
  apply list_elem_of_fmap in Hin as (y & -> & Hin).
  by apply (proj1 (Forall_forall _ _) Hyields).
Qed.

Lemma get_session_id_others u u' w :
  u' ≠ u →
  Gradio.user_sessions (Gradio.get_session_id uuid4 u w).2 !! u'
  = Gradio.user_sessions w !! u'.
Proof.
  intros Hne. unfold Gradio.get_session_id.
  destruct (Gradio.user_sessions w !! u); simpl; [done|].
  by rewrite lookup_insert_ne.
Qed.

Hypothesis uuid4_unique : Inj (=) (=) uuid4.

Lemma process_code_query_consistent q u w :
  Gradio.consistent uuid4 w →
  Gradio.consistent uuid4 (Gradio.process_code_query uuid4 run q u w).2.
Proof.
  intros Hw%(get_session_id_consistent uuid4 uuid4_unique u).
  pose proof (process_code_query_other q u w) as Hother.
  rewrite process_code_query_unfold in *; simpl in *.
  destruct Hw as [Hissued Hdistinct Hrecords].
  split; simpl; [done|done|].
  intros app u' sid Hsome.
  destruct (decide ((app, u', sid) = (Gradio.APP_NAME, u, (Gradio.get_session_id uuid4 u w).1)))
    as [[= -> -> ->]|Hne].
  - eapply Hissued, get_session_id_recorded.
  - rewrite (Hother _ Hne), <- (get_session_id_store uuid4 u w) in Hsome.
    by eapply Hrecords.
Qed.

(** Every world the web form can reach is consistent. *)
Lemma after_consistent actions :
  Gradio.consistent uuid4 (Gradio.after uuid4 run actions).
Proof.
  unfold Gradio.after.
  induction actions as [|a actions IH] using rev_ind; simpl.
  - apply initial_world_consistent.
  - rewrite foldl_snoc. destruct a as [q u|u]; simpl.
    + by apply process_code_query_consistent.
    + by apply new_session_consistent.
Qed.

(** Two users resolve to two session ids, and a query of one leaves the
    records of the other as they are. *)
Lemma users_independent u1 u2 w q :
  Gradio.consistent uuid4 w →
  u1 ≠ u2 →
  let sid1 := (Gradio.get_session_id uuid4 u1 w).1 in
  let w1 := (Gradio.get_session_id uuid4 u1 w).2 in
  let sid2 := (Gradio.get_session_id uuid4 u2 w1).1 in
  let w' := (Gradio.process_code_query uuid4 run q u1 w).2 in
  sid1 ≠ sid2
  ∧ (∀ app sid, Gradio.session_service w' !! (app, u2, sid)
                = Gradio.session_service w !! (app, u2, sid))
  ∧ (∀ app u, Gradio.session_service w' !! (app, u, sid2)
              = Gradio.session_service w !! (app, u, sid2))
  ∧ (∀ app sid, session_state (app, u2, sid) (Gradio.session_service w')
                = session_state (app, u2, sid) (Gradio.session_service w)).
Proof.
  intros Hw Hne sid1 w1 sid2 w'.
  assert (sid1 ≠ sid2) as Hsid.
  { intros Heq. apply Hne.
    pose proof (get_session_id_consistent uuid4 uuid4_unique u2 w1
                  (get_session_id_consistent uuid4 uuid4_unique u1 w Hw)) as [_ Hdistinct _].
    apply (Hdistinct u1 u2 sid2).
    - rewrite get_session_id_others by done. rewrite <- Heq. apply get_session_id_recorded.
    - apply get_session_id_recorded. }
  assert (∀ app sid, Gradio.session_service w' !! (app, u2, sid)
                     = Gradio.session_service w !! (app, u2, sid)) as Hu2.
  { intros app sid. apply process_code_query_other. congruence. }
  split_and!; [done|done| |].
  - intros app u. apply process_code_query_other. fold sid1. congruence.
  - intros app sid. unfold session_state. by rewrite Hu2.
Qed.

End Users.

(** C8. In every world the web form can reach, two different users
    resolve to two different session ids, and a query of one of them
    changes no record of the other, nor any record filed under the other's
    session id: the outputs of its stages do not show up in the other
    user's session state. *)
Theorem distinct_users_independent
    (uuid4 : nat → string) (generate : LlmAgent → Prompt → string)
    (actions : list Gradio.Action) (u1 u2 q : string) :
  Inj (=) (=) uuid4 →
  u1 ≠ u2 →
  let run := Runner_run generate in
  let w := Gradio.after uuid4 run actions in
  let sid1 := (Gradio.get_session_id uuid4 u1 w).1 in
  let w1 := (Gradio.get_session_id uuid4 u1 w).2 in
  let sid2 := (Gradio.get_session_id uuid4 u2 w1).1 in
  let w' := (Gradio.process_code_query uuid4 run q u1 w).2 in
  sid1 ≠ sid2
  ∧ (∀ app sid, Gradio.session_service w' !! (app, u2, sid)
                = Gradio.session_service w !! (app, u2, sid))
  ∧ (∀ app u, Gradio.session_service w' !! (app, u, sid2)
              = Gradio.session_service w !! (app, u, sid2))
  ∧ (∀ app sid, session_state (app, u2, sid) (Gradio.session_service w')
                = session_state (app, u2, sid) (Gradio.session_service w)).
Proof.
  intros Hunique Hne run w.
  apply (users_independent uuid4 run (Runner_run_local generate) Hunique); [|done].
  by apply after_consistent; [apply Runner_run_local|].
Qed.

Lemma distinct_users_independent_witness :
  let stub := λ (stage : LlmAgent) (_ : Prompt), "stage:" +:+ name stage in
  let w := Gradio.after pretty (Runner_run stub) [Gradio.Submit "hello" "alice"] in
  (Gradio.get_session_id pretty "alice" w).1 = "session_0"
  ∧ (Gradio.get_session_id pretty "bob" w).1 = "session_1"
  ∧ "session_0" ≠ "session_1".
Proof.
  intros stub w. split; [reflexivity|]. split; [reflexivity|].
  refine (proj1 (distinct_users_independent pretty stub [Gradio.Submit "hello" "alice"]
                   "alice" "bob" "hello" pretty_nat_inj _)).
  by vm_compute.
Defined.

(** C4. A missing session record is not recovered. When the store has no
    record for the session id resolved for the user, the lookup returns
    None without raising, so the handler of lines 159-160 is not entered:
    process_code_query files no record and runs the agent on the store as
    it is. On the pipeline runner the call then returns the fallback
    message, and the store still has no record under that id afterwards. *)
Theorem session_miss_files_no_record
    (uuid4 : nat → string) (run : RunnerRun) (q u : string) (w : Gradio.World) :
  let sid := (Gradio.get_session_id uuid4 u w).1 in
  let w1 := (Gradio.get_session_id uuid4 u w).2 in
  Gradio.session_service w1 !! (Gradio.APP_NAME, u, sid) = None →
  get_session Gradio.APP_NAME u sid (Gradio.session_service w1) = inr None
  ∧ Gradio.ensure_session u sid (Gradio.session_service w1) = (None, Gradio.session_service w1)
  ∧ Gradio.query_run uuid4 run q u w
    = run Gradio.runner u sid
        {| types.role := "user"; types.parts := Some [ {| types.text := Some q |} ] |}
        (Gradio.session_service w1)
  ∧ ∀ generate,
      let result := Gradio.process_code_query uuid4 (Runner_run generate) q u w in
      result.1 = inr Gradio.FALLBACK
      ∧ Gradio.session_service result.2 = Gradio.session_service w
      ∧ Gradio.session_service result.2 !! (Gradio.APP_NAME, u, sid) = None.
Proof.
  intros sid w1 Hmiss.
  assert (Gradio.ensure_session u sid (Gradio.session_service w1)
          = (None, Gradio.session_service w1)) as Hensure.
  { by rewrite ensure_session_lookup, Hmiss. }
  split_and!.
  - unfold get_session. by rewrite Hmiss.
  - done.
  - rewrite query_run_unfold. cbv zeta. fold sid w1. by rewrite Hensure.
  - intros generate result. unfold result.
    rewrite process_code_query_unfold. cbv zeta. fold sid w1. rewrite Hensure.
    cbn [fst snd].
    rewrite (proj2 (respond_pipeline_missing generate q u sid _ Hmiss)); simpl.
    unfold w1 in *. rewrite get_session_id_store in *. by split_and!.
Qed.

Lemma session_miss_files_no_record_witness :
  let generate := λ (stage : LlmAgent) (_ : Prompt), "stage:" +:+ name stage in
  Gradio.ensure_session "default_user" "session_0" ∅ = (None, ∅)
  ∧ (Gradio.process_code_query pretty (Runner_run generate) "hello" "default_user"
       Gradio.initial_world).1
    = inr "I encountered an issue processing your request. Please try again or start a new session.".
Proof.
  intros generate.
  destruct (session_miss_files_no_record pretty (Runner_run generate) "hello" "default_user"
              Gradio.initial_world eq_refl) as (_ & Hensure & _ & Hresult).
  split; [exact Hensure | exact (proj1 (Hresult generate))].
Defined.

(** C7. With the stub that returns "stage:<name>" for every stage,
    process_code_query on a freshly reset session with the query "hello"
    returns "stage:ExplanationAgent", the output of the last stage; so does
    a second run on the same session, and so does the run for any other
    user, world or source of UUIDs. *)
Theorem stub_pipeline_returns_last_stage
    (uuid4 : nat → string) (u : string) (w : Gradio.World) :
  let stub := λ (stage : LlmAgent) (_ : Prompt), "stage:" +:+ name stage in
  let run := Runner_run stub in
  let reset := (Gradio.new_session uuid4 u w).2 in
  let first := Gradio.process_code_query uuid4 run "hello" u reset in
  let second := Gradio.process_code_query uuid4 run "hello" u first.2 in
  first.1 = inr "stage:ExplanationAgent"
  ∧ second.1 = first.1
  ∧ ∀ uuid4' u' w',
      (Gradio.process_code_query uuid4' run "hello" u' (Gradio.new_session uuid4' u' w').2).1
      = first.1.
Proof.
  intros stub run.
  assert (∀ uuid4' q u' w',
            is_Some (Gradio.session_service w'
                       !! (Gradio.APP_NAME, u', (Gradio.get_session_id uuid4' u' w').1)) →
            (Gradio.process_code_query uuid4' run q u' w').1 = inr "stage:ExplanationAgent"
            ∧ is_Some (Gradio.session_service (Gradio.process_code_query uuid4' run q u' w').2
                         !! (Gradio.APP_NAME, u', (Gradio.get_session_id uuid4' u' w').1)))
    as Hrecord.
  { intros uuid4' q u' w' [session0 Hsession0]. subst run.
    destruct (process_code_query_on_record stub uuid4' q u' w' session0 Hsession0)
      as (step & session & Htext & -> & -> & _).
    split; [by rewrite Htext|done]. }
  assert (∀ uuid4' u' w',
            Gradio.get_session_id uuid4' u' (Gradio.new_session uuid4' u' w').2
            = ("session_" +:+ uuid4' (Gradio.uuid_draws w'), (Gradio.new_session uuid4' u' w').2)
            ∧ is_Some (Gradio.session_service (Gradio.new_session uuid4' u' w').2
                         !! (Gradio.APP_NAME, u', "session_" +:+ uuid4' (Gradio.uuid_draws w'))))
    as Hreset.
  { intros uuid4' u' w'. split.
    - apply get_session_id_known; simpl. by rewrite lookup_insert_eq.
    - simpl. by rewrite lookup_insert_eq. }
  assert (∀ uuid4' u' w',
            (Gradio.process_code_query uuid4' run "hello" u' (Gradio.new_session uuid4' u' w').2).1
            = inr "stage:ExplanationAgent") as Hfresh.
  { intros uuid4' u' w'. destruct (Hreset uuid4' u' w') as [Hget Hsome].
    apply Hrecord. by rewrite Hget. }
  intros reset first second.
  assert (first.1 = inr "stage:ExplanationAgent") as Hfirst by apply Hfresh.
  split_and!; [done| |intros; rewrite Hfirst; apply Hfresh].
  rewrite Hfirst.
  destruct (Hreset uuid4 u w) as [Hget Hsome]. fold reset in Hget, Hsome.
  destruct (Hrecord uuid4 "hello" u reset) as [_ Hafter]; [by rewrite Hget|].
  rewrite Hget in Hafter. cbn [fst] in Hafter. fold first in Hafter.
  assert (Gradio.get_session_id uuid4 u first.2
          = ("session_" +:+ uuid4 (Gradio.uuid_draws w), first.2)) as Hagain.
  { apply get_session_id_known. unfold first.
    rewrite process_code_query_unfold. cbv zeta. cbn [snd Gradio.user_sessions].
    rewrite Hget. unfold reset; simpl. by rewrite lookup_insert_eq. }
  apply Hrecord. by rewrite Hagain.
Qed.

(** ** The console front end *)

Section ConsoleFacts.

Variable run : RunnerRun.

Abbreviation response_header := (MultiToolAgent.newline +:+ "Code Assistant Response:").

Abbreviation printed := MultiToolAgent.printed.

Lemma print_final_responses_none events raised final stdout :
  Forall (λ y, is_final_response y.1 = false) events →
  MultiToolAgent.print_final_responses events raised final stdout
  = (match raised with Some e => inl e | None => inr () end, stdout, final).
Proof.
  induction 1 as [|[event store] rest Hevent _ IH]; simpl.
  - by destruct raised.
  - simpl in Hevent. by rewrite Hevent.
Qed.

Lemma print_final_responses_all events raised final stdout :
  Forall (λ y, is_final_response y.1 = true → ∃ t, content_parts_0_text y.1 = inr t) events →
  (MultiToolAgent.print_final_responses events raised final stdout).1.2
  = (stdout ++ mjoin (printed <$> events))%list.
Proof.
  intros Hevents. revert stdout.
  induction Hevents as [|[event store] rest Hevent _ IH]; intros stdout; simpl.
  - rewrite app_nil_r. by destruct raised.
  - unfold MultiToolAgent.printed at 1; simpl in *.
    destruct (is_final_response event); [|by apply IH].
    destruct (Hevent eq_refl) as [t ->]. by rewrite IH, <- app_assoc.
Qed.

(** Every line that is printed is there already, is the header, or is
    the text of a final-response event. *)
Lemma print_final_responses_lines events raised final stdout line :
  line ∈ (MultiToolAgent.print_final_responses events raised final stdout).1.2 →
  line ∈ stdout
  ∨ line = response_header
  ∨ ∃ y t, y ∈ events ∧ is_final_response y.1 = true
           ∧ content_parts_0_text y.1 = inr t ∧ line = MultiToolAgent.str t.
Proof.
  revert stdout. induction events as [|[event store] rest IH]; intros stdout; simpl.
  - destruct raised; by left.
  - destruct (is_final_response event) eqn:Hfinal.
    + destruct (content_parts_0_text event) as [e|t] eqn:Htext; simpl; [by left|].
      intros [Hin|[->|(y & t' & Hy & ? & ? & ->)]]%IH.
      * apply elem_of_app in Hin as [Hin|Hin]; [by left|].
        apply elem_of_cons in Hin as [->|Hin]; [by right; left|].
        apply list_elem_of_singleton in Hin as ->.
        right; right. exists (event, store), t. split_and!; [|done..].
        apply elem_of_cons. by left.
      * by right; left.
      * right; right. exists y, t'. split_and!; [|done..].
        apply elem_of_cons. by right.
    + intros [Hin|[->|(y & t' & Hy & ? & ? & ->)]]%IH; [by left|by right; left|].
      right; right. exists y, t'. split_and!; [|done..].
      apply elem_of_cons. by right.
Qed.

(** C10. call_agent has no default for an empty response. When no event
    of the run is a final response it prints the query line and nothing
    else, and returns None. Otherwise it prints, for every final-response
    event, the header and the event's text as it is, the empty string
    included. The fallback message of the web front end is printed only if
    an event carries it. *)
Theorem call_agent_no_fallback (query : string) (store : InMemorySessionService) :
  let events := run MultiToolAgent.runner MultiToolAgent.USER_ID MultiToolAgent.SESSION_ID
                  {| types.role := "user"; types.parts := Some [ {| types.text := Some query |} ] |}
                  store in
  let result := (MultiToolAgent.call_agent run query store).1.1 in
  let stdout := (MultiToolAgent.call_agent run query store).1.2 in
  let query_line := MultiToolAgent.newline +:+ "User Query: " +:+ query in
  (Forall (λ y, is_final_response y.1 = false) (yields events) →
     stdout = [query_line] ∧ (raised events = None → result = inr ()))
  ∧ (Forall (λ y, is_final_response y.1 = true → ∃ t, content_parts_0_text y.1 = inr t)
       (yields events) →
     stdout = query_line :: mjoin (printed <$> yields events)
     ∧ ∀ y, y ∈ yields events → is_final_response y.1 = true →
            content_parts_0_text y.1 = inr (Some "") →
            printed y = [response_header; ""] ∧ "" ∈ stdout)
  ∧ (Gradio.FALLBACK ∈ stdout →
     ∃ y, y ∈ yields events ∧ is_final_response y.1 = true
          ∧ content_parts_0_text y.1 = inr (Some Gradio.FALLBACK)).
Proof.
  intros events result stdout query_line.
  unfold result, stdout, MultiToolAgent.call_agent. fold events query_line.
  split_and!.
  - intros Hnone. rewrite (print_final_responses_none _ _ _ _ Hnone); simpl.
    split; [done|]. by intros ->.
  - intros Hall. rewrite (print_final_responses_all _ _ _ _ Hall).
    split; [done|]. intros y Hy Hfinal Htext.
    assert (printed y = [response_header; ""]) as Hprinted.
    { unfold MultiToolAgent.printed. by rewrite Hfinal, Htext. }
    split; [done|]. apply elem_of_cons. right.
    apply list_elem_of_join. exists (printed y). split.
    + rewrite Hprinted. apply elem_of_cons. right. by apply list_elem_of_singleton.
    + by apply list_elem_of_fmap_2.
  - intros [Hin|[Heq|(y & t & Hy & Hfinal & Htext & Heq)]]%print_final_responses_lines.
    + apply list_elem_of_singleton in Hin. by vm_compute in Hin.
    + by vm_compute in Heq.
    + exists y. split_and!; [done|done|]. rewrite Htext.
      destruct t as [s|]; simpl in Heq; [by rewrite Heq|by vm_compute in Heq].
Qed.

End ConsoleFacts.

Lemma call_agent_no_fallback_witness :
  let idle : RunnerRun := λ _ _ _ _ store, {| yields := []; raised := None; final := store |} in
  (MultiToolAgent.call_agent idle "hello" MultiToolAgent.initial_store).1.2
  = [MultiToolAgent.newline +:+ "User Query: hello"].
Proof.
  intros idle.
  exact (proj1 (proj1 (call_agent_no_fallback idle "hello" MultiToolAgent.initial_store)
                  (Forall_nil_2 _))).
Defined.

(** * Further properties of the front ends *)

(** ** The registry *)

Section RegistryMore.

Variable uuid4 : nat → string.

(** X1. Resolving a user a second time gives the same id and changes nothing,
    also when other users have been resolved in between. *)
Theorem get_session_id_stable (u : string) (w : Gradio.World) :
  let first := Gradio.get_session_id uuid4 u w in
  Gradio.get_session_id uuid4 u first.2 = (first.1, first.2)
  ∧ ∀ u', (Gradio.get_session_id uuid4 u (Gradio.get_session_id uuid4 u' first.2).2).1
          = first.1.
Proof.
  intros first.
  assert (Gradio.user_sessions first.2 !! u = Some first.1) as Hrecorded
    by apply get_session_id_recorded.
  split; [by apply get_session_id_known|].
  intros u'. destruct (decide (u' = u)) as [->|Hne].
  - rewrite (get_session_id_known uuid4 u first.1 first.2 Hrecorded); simpl.
    by rewrite (get_session_id_known uuid4 u first.1 first.2 Hrecorded).
  - erewrite get_session_id_known; [done|].
    by rewrite (get_session_id_others uuid4 u' u first.2).
Qed.

(** X2. new_session leaves the other users and every record of the store as
    they are: the id it draws is recorded for no user and no record is
    filed under it, so the record it creates replaces none. *)
Theorem new_session_keeps_others (u : string) (w : Gradio.World) :
  Inj (=) (=) uuid4 →
  Gradio.consistent uuid4 w →
  let sid := "session_" +:+ uuid4 (Gradio.uuid_draws w) in
  let w' := (Gradio.new_session uuid4 u w).2 in
  (∀ u', u' ≠ u → Gradio.user_sessions w' !! u' = Gradio.user_sessions w !! u')
  ∧ (∀ u', Gradio.user_sessions w !! u' ≠ Some sid)
  ∧ (∀ app u', Gradio.session_service w !! (app, u', sid) = None)
  ∧ (∀ key session, Gradio.session_service w !! key = Some session →
                    Gradio.session_service w' !! key = Some session)
  ∧ Gradio.uuid_draws w' = S (Gradio.uuid_draws w).
Proof.
  intros Hunique Hw sid w'.
  destruct (next_unused uuid4 Hunique w Hw) as [Husers Hrecords].
  split_and!; [|done|done| |done].
  - intros u' Hne. unfold w'; simpl. by rewrite lookup_insert_ne.
  - intros [[app u'] sid'] session Hsession. unfold w'; simpl.
    rewrite lookup_insert_ne; [done|].
    intros [= <- <- <-]. fold sid in Hsession. by rewrite Hrecords in Hsession.
Qed.

End RegistryMore.

Lemma new_session_keeps_others_witness :
  let w := (Gradio.new_session pretty "alice" Gradio.initial_world).2 in
  Gradio.user_sessions (Gradio.new_session pretty "bob" w).2 !! "alice" = Some "session_0".
Proof.
  intros w.
  pose proof (new_session_keeps_others pretty "bob" w pretty_nat_inj
                (new_session_consistent pretty pretty_nat_inj "alice" Gradio.initial_world
                   (initial_world_consistent pretty))) as (Hothers & _).
  rewrite (Hothers "alice"); [reflexivity|done].
Defined.

(** ** The response of process_code_query *)

(** The final-response events among the events of a run. *)
Abbreviation final_events events :=
  (filter (λ y : Event * InMemorySessionService, is_final_response y.1 = true) events).

(** An event whose text the loops can read if they have to. *)
Abbreviation readable :=
  (λ y : Event * InMemorySessionService,
     is_final_response y.1 = true → ∃ t, content_parts_0_text y.1 = inr t).

Section Loop.

(** As long as the events are readable the loop carries on. *)
Lemma last_final_response_app before rest raised final init :
  Forall readable before →
  ∃ init', Gradio.last_final_response (before ++ rest) raised final init
           = Gradio.last_final_response rest raised final init'.
Proof.
  intros Hbefore. revert init.
  induction Hbefore as [|[event store] before Hevent _ IH]; intros init; simpl; [eauto|].
  simpl in Hevent. destruct (is_final_response event); [|by apply IH].
  destruct (Hevent eq_refl) as [t ->]. by apply IH.
Qed.


Lemma last_final_response_raised events e final init :
  Forall readable events →
  Gradio.last_final_response events (Some e) final init = (inl e, final).
Proof.
  intros Hevents. revert init.
  induction Hevents as [|[event store] events Hevent _ IH]; intros init; simpl; [done|].
  simpl in Hevent. destruct (is_final_response event); [|by apply IH].
  destruct (Hevent eq_refl) as [t ->]. by apply IH.
Qed.

End Loop.

Section QueriesMore.

Variable uuid4 : nat → string.
Variable run : RunnerRun.

(** The result of a query in terms of the loop over the events of its run. *)
Lemma process_code_query_loop q u w :
  let events := Gradio.query_run uuid4 run q u w in
  let loop := Gradio.last_final_response (yields events) (raised events) (final events)
                (Some "") in
  (Gradio.process_code_query uuid4 run q u w).1
  = match loop.1 with
    | inl e => inl e
    | inr v => inr (if Gradio.not_ v then Gradio.FALLBACK else default "" v)
    end
  ∧ Gradio.session_service (Gradio.process_code_query uuid4 run q u w).2 = loop.2.
Proof.
  rewrite query_run_unfold, process_code_query_unfold. cbv zeta. cbn [fst snd].
  unfold Gradio.respond.
  by destruct (Gradio.last_final_response _ _ _ _) as [[e|v] store'].
Qed.

(** X3. Whatever the runner does, a text that process_code_query returns is
    not empty. *)
Theorem process_code_query_never_empty (q u : string) (w : Gradio.World) (text : string) :
  (Gradio.process_code_query uuid4 run q u w).1 = inr text → text ≠ "".
Proof.
  destruct (process_code_query_loop q u w) as [-> _].
  destruct (Gradio.last_final_response _ _ _ _).1 as [e|[s|]]; simpl; [done| |].
  - case_bool_decide; intros [= <-]; done.
  - by intros [= <-].
Qed.


(** X5. A final-response event whose text cannot be read makes
    process_code_query raise, provided the events before it could be read:
    the exception is the one of the access, AttributeError when the event
    has no content, TypeError when the parts of its content are None and
    IndexError when they are an empty list; the store is the one the run
    had reached at that event. *)
Theorem process_code_query_unreadable_event
    (q u : string) (w : Gradio.World)
    (before rest : list (Event * InMemorySessionService))
    (event : Event) (store : InMemorySessionService) (e : Exception) :
  yields (Gradio.query_run uuid4 run q u w) = (before ++ (event, store) :: rest)%list →
  Forall readable before →
  is_final_response event = true →
  content_parts_0_text event = inl e →
  (Gradio.process_code_query uuid4 run q u w).1 = inl e
  ∧ Gradio.session_service (Gradio.process_code_query uuid4 run q u w).2 = store
  ∧ (content event = None → e = AttributeError)
  ∧ (∀ c, content event = Some c →
          (types.parts c = None ∧ e = TypeError)
          ∨ (types.parts c = Some [] ∧ e = IndexError)).
Proof.
  intros Hyields Hbefore Hfinal Htext.
  destruct (process_code_query_loop q u w) as [-> ->]. rewrite Hyields.
  destruct (last_final_response_app before ((event, store) :: rest)
              (raised (Gradio.query_run uuid4 run q u w))
              (final (Gradio.query_run uuid4 run q u w)) (Some "") Hbefore) as [init' ->].
  simpl. rewrite Hfinal, Htext; simpl. split_and!; [done|done| |].
  - intros Hnone. unfold content_parts_0_text in Htext. rewrite Hnone in Htext. congruence.
  - intros c Hc. unfold content_parts_0_text in Htext. rewrite Hc in Htext.
    destruct (types.parts c) as [[|p ps]|]; [right|done|left]; split; congruence.
Qed.

(** X6. An exception of the run reaches the caller of process_code_query:
    when the events could be read and the run then raises, the call raises
    the same exception, whatever the events carried. *)
Theorem process_code_query_propagates (q u : string) (w : Gradio.World) e :
  raised (Gradio.query_run uuid4 run q u w) = Some e →
  Forall readable (yields (Gradio.query_run uuid4 run q u w)) →
  (Gradio.process_code_query uuid4 run q u w).1 = inl e
  ∧ Gradio.session_service (Gradio.process_code_query uuid4 run q u w).2
    = final (Gradio.query_run uuid4 run q u w).
Proof.
  intros Hraised Hevents.
  destruct (process_code_query_loop q u w) as [-> ->].
  by rewrite Hraised, (last_final_response_raised _ _ _ _ Hevents).
Qed.

End QueriesMore.

Lemma process_code_query_never_empty_witness :
  let run := Samples.replay [Samples.text_event "ExplanationAgent" (Some "done") true] None in
  (Gradio.process_code_query pretty run "hello" "default_user" Gradio.initial_world).1
  = inr "done"
  ∧ "done" ≠ "".
Proof.
  intros run. split; [reflexivity|].
  exact (process_code_query_never_empty pretty run "hello" "default_user"
           Gradio.initial_world "done" eq_refl).
Defined.


Lemma process_code_query_unreadable_event_witness :
  let run := Samples.replay
               [Samples.text_event "ResearchAgent" (Some "first") true;
                Samples.bare_event "ExplanationAgent"] None in
  (Gradio.process_code_query pretty run "hello" "default_user" Gradio.initial_world).1
  = inl AttributeError.
Proof.
  intros run.
  set (store := (Gradio.ensure_session "default_user" "session_0" ∅).2).
  refine (proj1 (process_code_query_unreadable_event pretty run "hello" "default_user"
                   Gradio.initial_world
                   [(Samples.text_event "ResearchAgent" (Some "first") true, store)] []
                   (Samples.bare_event "ExplanationAgent") store AttributeError
                   eq_refl _ eq_refl eq_refl)).
  apply Forall_cons; split; [intros _; eexists; reflexivity|apply Forall_nil_2].
Defined.

Lemma process_code_query_propagates_witness :
  let run := Samples.replay [Samples.text_event "ResearchAgent" (Some "first") true]
               (Some (FrameworkError "model unavailable")) in
  (Gradio.process_code_query pretty run "hello" "default_user" Gradio.initial_world).1
  = inl (FrameworkError "model unavailable").
Proof.
  intros run.
  refine (proj1 (process_code_query_propagates pretty run "hello" "default_user"
                   Gradio.initial_world _ eq_refl _)).
  apply Forall_cons; split; [intros _; eexists; reflexivity|apply Forall_nil_2].
Defined.

(** ** Queries and the registry *)

Section QueriesAndRegistry.

Variable uuid4 : nat → string.
Variable run : RunnerRun.

(** X7. What a query does to the registry is what get_session_id does: the
    user stays recorded under the id the query resolved, later queries of
    the same user resolve the same id, and a query of a user who is
    already recorded changes neither the registry nor the number of UUIDs
    drawn. *)
Theorem process_code_query_registry (q u : string) (w : Gradio.World) :
  let sid := (Gradio.get_session_id uuid4 u w).1 in
  let w' := (Gradio.process_code_query uuid4 run q u w).2 in
  Gradio.user_sessions w' = Gradio.user_sessions (Gradio.get_session_id uuid4 u w).2
  ∧ Gradio.uuid_draws w' = Gradio.uuid_draws (Gradio.get_session_id uuid4 u w).2
  ∧ Gradio.get_session_id uuid4 u w' = (sid, w')
  ∧ (∀ q', (Gradio.get_session_id uuid4 u
              (Gradio.process_code_query uuid4 run q' u w').2).1 = sid)
  ∧ (is_Some (Gradio.user_sessions w !! u) →
     Gradio.user_sessions w' = Gradio.user_sessions w
     ∧ Gradio.uuid_draws w' = Gradio.uuid_draws w).
Proof.
  intros sid w'.
  assert (∀ q0 w0, Gradio.user_sessions (Gradio.process_code_query uuid4 run q0 u w0).2
                   = Gradio.user_sessions (Gradio.get_session_id uuid4 u w0).2) as Husers.
  { intros q0 w0. by rewrite process_code_query_unfold. }
  assert (∀ q0 w0, Gradio.get_session_id uuid4 u (Gradio.process_code_query uuid4 run q0 u w0).2
                   = ((Gradio.get_session_id uuid4 u w0).1,
                      (Gradio.process_code_query uuid4 run q0 u w0).2)) as Hknown.
  { intros q0 w0. apply get_session_id_known. rewrite Husers.
    apply get_session_id_recorded. }
  split_and!.
  - apply Husers.
  - unfold w'. by rewrite process_code_query_unfold.
  - apply Hknown.
  - intros q'. rewrite Hknown. unfold w'. by rewrite Hknown.
  - intros [sid0 Hsid0]. unfold w'. rewrite process_code_query_unfold; simpl.
    by rewrite (get_session_id_known uuid4 u sid0 w Hsid0).
Qed.

(** X8. When the store has a record for the resolved session, the lookup
    finds it and the agent is run on the store as it is: nothing is
    created and nothing is reset. *)
Theorem session_hit_keeps_record (q u : string) (w : Gradio.World) (session : Session) :
  let sid := (Gradio.get_session_id uuid4 u w).1 in
  let w1 := (Gradio.get_session_id uuid4 u w).2 in
  Gradio.session_service w !! (Gradio.APP_NAME, u, sid) = Some session →
  Gradio.ensure_session u sid (Gradio.session_service w1)
  = (Some session, Gradio.session_service w)
  ∧ Gradio.query_run uuid4 run q u w
    = run Gradio.runner u sid
        {| types.role := "user"; types.parts := Some [ {| types.text := Some q |} ] |}
        (Gradio.session_service w)
  ∧ Gradio.process_code_query uuid4 run q u w
    = ((Gradio.respond run q u sid (Gradio.session_service w)).1,
       {| Gradio.user_sessions := Gradio.user_sessions w1;
          Gradio.session_service := (Gradio.respond run q u sid (Gradio.session_service w)).2;
          Gradio.uuid_draws := Gradio.uuid_draws w1 |}).
Proof.
  intros sid w1 Hhit.
  assert (Gradio.ensure_session u sid (Gradio.session_service w1)
          = (Some session, Gradio.session_service w)) as Hensure.
  { unfold w1. by rewrite get_session_id_store, ensure_session_lookup, Hhit. }
  split_and!; [done| |].
  - rewrite query_run_unfold. cbv zeta. fold sid w1. by rewrite Hensure.
  - rewrite process_code_query_unfold. cbv zeta. fold sid w1. by rewrite Hensure.
Qed.

(** X9. After new_session the next query of the user resolves the new id
    without drawing another one, finds the empty record new_session has
    filed, and runs the agent on the store as new_session left it. *)
Theorem query_after_new_session (q u : string) (w : Gradio.World) :
  let sid := "session_" +:+ uuid4 (Gradio.uuid_draws w) in
  let w1 := (Gradio.new_session uuid4 u w).2 in
  Gradio.get_session_id uuid4 u w1 = (sid, w1)
  ∧ Gradio.session_service w1 !! (Gradio.APP_NAME, u, sid)
    = Some {| app_name := Gradio.APP_NAME; user_id := u; session_id := sid; state := ∅ |}
  ∧ Gradio.query_run uuid4 run q u w1
    = run Gradio.runner u sid
        {| types.role := "user"; types.parts := Some [ {| types.text := Some q |} ] |}
        (Gradio.session_service w1)
  ∧ Gradio.user_sessions (Gradio.process_code_query uuid4 run q u w1).2
    = Gradio.user_sessions w1
  ∧ Gradio.uuid_draws (Gradio.process_code_query uuid4 run q u w1).2
    = Gradio.uuid_draws w1.
Proof.
  intros sid w1.
  assert (Gradio.get_session_id uuid4 u w1 = (sid, w1)) as Hget.
  { apply get_session_id_known. unfold w1; simpl. by rewrite lookup_insert_eq. }
  assert (Gradio.session_service w1 !! (Gradio.APP_NAME, u, sid)
          = Some {| app_name := Gradio.APP_NAME; user_id := u; session_id := sid;
                    state := ∅ |}) as Hrecord.
  { unfold w1; simpl. by rewrite lookup_insert_eq. }
  split_and!; [done|done| | |].
  - rewrite query_run_unfold, Hget. cbv zeta. cbn [fst snd].
    unfold Gradio.ensure_session, get_session. by rewrite Hrecord.
  - by rewrite process_code_query_unfold, Hget.
  - by rewrite process_code_query_unfold, Hget.
Qed.

End QueriesAndRegistry.

Lemma process_code_query_registry_witness :
  let run := Samples.replay [] None in
  let w := (Gradio.new_session pretty "alice" Gradio.initial_world).2 in
  Gradio.uuid_draws (Gradio.process_code_query pretty run "hello" "alice" w).2 = 1.
Proof.
  intros run w.
  pose proof (process_code_query_registry pretty run "hello" "alice" w)
    as (_ & _ & _ & _ & Hknown).
  destruct Hknown as [_ ->]; [|reflexivity].
  unfold w; simpl. rewrite lookup_insert_eq. eauto.
Defined.

Lemma session_hit_keeps_record_witness :
  let run := Samples.replay [Samples.text_event "ExplanationAgent" (Some "done") true] None in
  let w := (Gradio.new_session pretty "alice" Gradio.initial_world).2 in
  yields (Gradio.query_run pretty run "hello" "alice" w)
  = [(Samples.text_event "ExplanationAgent" (Some "done") true, Gradio.session_service w)].
Proof.
  intros run w.
  destruct (session_hit_keeps_record pretty run "hello" "alice" w
              {| app_name := Gradio.APP_NAME; user_id := "alice";
                 session_id := "session_0"; state := ∅ |}) as (_ & -> & _).
  - unfold w; simpl. apply lookup_insert_eq.
  - reflexivity.
Defined.

(** ** The worlds the web form can reach *)

Section Reachable.

Variable uuid4 : nat → string.
Variable run : RunnerRun.

Lemma perform_draws a w :
  (Gradio.uuid_draws (Gradio.perform uuid4 run a w) ≤ S (Gradio.uuid_draws w))%nat.
Proof.
  destruct a as [q u|u]; simpl; [|done].
  rewrite process_code_query_unfold; simpl. unfold Gradio.get_session_id.
  destruct (Gradio.user_sessions w !! u); simpl; lia.
Qed.

Lemma perform_other_users a w u :
  u ≠ action_user a →
  Gradio.user_sessions (Gradio.perform uuid4 run a w) !! u = Gradio.user_sessions w !! u.
Proof.
  destruct a as [q u'|u']; simpl; intros Hne.
  - rewrite process_code_query_unfold; simpl. by apply get_session_id_others.
  - by rewrite lookup_insert_ne.
Qed.

(** X10. Whatever sequence of Submit and Start New Session the web form
    performs, with a runner that only touches the session it is run on and
    distinct UUID draws: every recorded id is "session_" followed by a UUID
    that has been drawn, no two users share an id, every record of the
    store is filed under such an id, at most one UUID is drawn per action,
    and only users who have acted are recorded. *)
Theorem reachable_worlds (actions : list Gradio.Action) :
  local_run run →
  Inj (=) (=) uuid4 →
  let w := Gradio.after uuid4 run actions in
  (∀ u sid, Gradio.user_sessions w !! u = Some sid →
            ∃ n, n < Gradio.uuid_draws w ∧ sid = "session_" +:+ uuid4 n)
  ∧ (∀ u1 u2 sid, Gradio.user_sessions w !! u1 = Some sid →
                  Gradio.user_sessions w !! u2 = Some sid → u1 = u2)
  ∧ (∀ app u sid, is_Some (Gradio.session_service w !! (app, u, sid)) →
                  ∃ n, n < Gradio.uuid_draws w ∧ sid = "session_" +:+ uuid4 n)
  ∧ (Gradio.uuid_draws w ≤ length actions)%nat
  ∧ (∀ u, is_Some (Gradio.user_sessions w !! u) → u ∈ action_user <$> actions).
Proof.
  intros Hlocal Hunique w.
  destruct (after_consistent uuid4 run Hlocal Hunique actions) as [Hissued Hdistinct Hrecords].
  fold w in Hissued, Hdistinct, Hrecords.
  split_and!; [done|done|done| |]; unfold w, Gradio.after; clear.
  - induction actions as [|a actions IH] using rev_ind; simpl; [done|].
    rewrite foldl_snoc, length_app; simpl.
    pose proof (perform_draws a (foldl (λ w a, Gradio.perform uuid4 run a w)
                                   Gradio.initial_world actions)).
    lia.
  - induction actions as [|a actions IH] using rev_ind; simpl; intros u.
    + rewrite lookup_empty. by intros [? ?].
    + rewrite foldl_snoc, fmap_app, elem_of_app; simpl.
      destruct (decide (u = action_user a)) as [->|Hne].
      * intros _. right. by apply list_elem_of_singleton.
      * rewrite perform_other_users by done. intros H%IH. by left.
Qed.

End Reachable.

Lemma reachable_worlds_witness :
  let run := Samples.replay [Samples.text_event "ExplanationAgent" (Some "done") true] None in
  let w := Gradio.after pretty run
             [Gradio.Submit "hello" "alice"; Gradio.StartNewSession "bob";
              Gradio.Submit "again" "alice"] in
  (Gradio.uuid_draws w ≤ 3)%nat
  ∧ Gradio.user_sessions w !! "alice" ≠ Gradio.user_sessions w !! "bob".
Proof.
  intros run w.
  assert (local_run run) as Hlocal.
  { intros runner user sid new_message store key _. split; [|done].
    apply Forall_cons; split; [done|apply Forall_nil_2]. }
  destruct (reachable_worlds pretty run
              [Gradio.Submit "hello" "alice"; Gradio.StartNewSession "bob";
               Gradio.Submit "again" "alice"] Hlocal pretty_nat_inj)
    as (_ & Hdistinct & _ & Hdraws & _).
  split; [exact Hdraws|].
  intros Heq.
  assert ("alice" = "bob") as Habs; [|discriminate Habs].
  apply (Hdistinct "alice" "bob" "session_0"); [reflexivity|].
  fold w. rewrite <- Heq. reflexivity.
Defined.

(** ** The console loop *)

Section ConsoleMore.

Variable run : RunnerRun.

(** As long as the events are readable the loop carries on, having
    printed what belongs to them. *)
Lemma print_final_responses_app before rest raised final stdout :
  Forall readable before →
  MultiToolAgent.print_final_responses (before ++ rest) raised final stdout
  = MultiToolAgent.print_final_responses rest raised final
      (stdout ++ mjoin (MultiToolAgent.printed <$> before))%list.
Proof.
  intros Hbefore. revert stdout.
  induction Hbefore as [|[event store] before Hevent _ IH]; intros stdout; simpl.
  - by rewrite app_nil_r.
  - unfold MultiToolAgent.printed at 1; simpl in *.
    destruct (is_final_response event); [|by apply IH].
    destruct (Hevent eq_refl) as [t ->]. by rewrite IH, <- app_assoc.
Qed.

(** X11. A final-response event whose text cannot be read makes call_agent
    raise the exception of the access, after the query line and the
    responses of the events before it have been printed; nothing of the
    later events is printed, and the store is the one the run had reached
    at that event. *)
Theorem call_agent_unreadable_event
    (query : string) (store0 : InMemorySessionService)
    (before rest : list (Event * InMemorySessionService))
    (event : Event) (store : InMemorySessionService) (e : Exception) :
  yields (run MultiToolAgent.runner MultiToolAgent.USER_ID MultiToolAgent.SESSION_ID
            {| types.role := "user"; types.parts := Some [ {| types.text := Some query |} ] |}
            store0)
  = (before ++ (event, store) :: rest)%list →
  Forall readable before →
  is_final_response event = true →
  content_parts_0_text event = inl e →
  MultiToolAgent.call_agent run query store0
  = (inl e,
     (MultiToolAgent.newline +:+ "User Query: " +:+ query)
       :: mjoin (MultiToolAgent.printed <$> before),
     store).
Proof.
  intros Hyields Hbefore Hfinal Htext. unfold MultiToolAgent.call_agent.
  rewrite Hyields, (print_final_responses_app _ _ _ _ _ Hbefore); simpl.
  by rewrite Hfinal, Htext.
Qed.

(** X12. An exception of the run reaches the caller of call_agent, after the
    query line and the responses of all events have been printed. *)
Theorem call_agent_propagates
    (query : string) (store0 : InMemorySessionService) (e : Exception) :
  let events := run MultiToolAgent.runner MultiToolAgent.USER_ID MultiToolAgent.SESSION_ID
                  {| types.role := "user"; types.parts := Some [ {| types.text := Some query |} ] |}
                  store0 in
  raised events = Some e →
  Forall readable (yields events) →
  MultiToolAgent.call_agent run query store0
  = (inl e,
     (MultiToolAgent.newline +:+ "User Query: " +:+ query)
       :: mjoin (MultiToolAgent.printed <$> yields events),
     final events).
Proof.
  intros events Hraised Hevents. unfold MultiToolAgent.call_agent. fold events.
  rewrite <- (app_nil_r (yields events)) at 1.
  rewrite (print_final_responses_app _ _ _ _ _ Hevents); simpl.
  by rewrite Hraised.
Qed.

End ConsoleMore.

(** X13. Over the same events, when the loop of process_code_query ends with a
    non-empty text in final_response, the loop of call_agent ends
    normally too and the last thing it has printed is that text. *)
Theorem console_prints_what_web_returns
    (events : list (Event * InMemorySessionService)) (raised : option Exception)
    (final : InMemorySessionService) (stdout : list string) (s : string) :
  (Gradio.last_final_response events raised final (Some "")).1 = inr (Some s) →
  s ≠ "" →
  let console := MultiToolAgent.print_final_responses events raised final stdout in
  console.1.1 = inr ()
  ∧ last console.1.2 = Some s
  ∧ console.2 = (Gradio.last_final_response events raised final (Some "")).2.
Proof.
  intros Hweb Hs.
  assert (∀ init stdout,
            init = Some "" ∨ last stdout = Some (MultiToolAgent.str init) →
            (Gradio.last_final_response events raised final init).1 = inr (Some s) →
            let console := MultiToolAgent.print_final_responses events raised final stdout in
            console.1.1 = inr ()
            ∧ last console.1.2 = Some s
            ∧ console.2 = (Gradio.last_final_response events raised final init).2) as Hgen.
  { clear Hweb stdout.
    induction events as [|[event store] events IH]; intros init stdout Hinit; simpl.
    - destruct raised; simpl; [done|]. intros [= ->].
      destruct Hinit as [Hempty|Hlast]; [congruence|done].
    - destruct (is_final_response event); [|by apply IH].
      destruct (content_parts_0_text event) as [e|t]; simpl; [done|].
      apply IH. right. by rewrite last_app. }
  apply Hgen; [by left|done].
Qed.

Lemma call_agent_unreadable_event_witness :
  let run := Samples.replay
               [Samples.text_event "ResearchAgent" (Some "first") true;
                Samples.bare_event "ExplanationAgent"] None in
  MultiToolAgent.call_agent run "hello" MultiToolAgent.initial_store
  = (inl AttributeError,
     [MultiToolAgent.newline +:+ "User Query: hello";
      MultiToolAgent.newline +:+ "Code Assistant Response:";
      "first"],
     MultiToolAgent.initial_store).
Proof.
  intros run.
  refine (call_agent_unreadable_event run "hello" MultiToolAgent.initial_store
            [(Samples.text_event "ResearchAgent" (Some "first") true,
              MultiToolAgent.initial_store)] []
            (Samples.bare_event "ExplanationAgent") MultiToolAgent.initial_store
            AttributeError eq_refl _ eq_refl eq_refl).
  apply Forall_cons; split; [intros _; eexists; reflexivity|apply Forall_nil_2].
Defined.

Lemma call_agent_propagates_witness :
  let run := Samples.replay [Samples.text_event "ResearchAgent" (Some "first") true]
               (Some (FrameworkError "model unavailable")) in
  (MultiToolAgent.call_agent run "hello" MultiToolAgent.initial_store).1.1
  = inl (FrameworkError "model unavailable").
Proof.
  intros run.
  rewrite (call_agent_propagates run "hello" MultiToolAgent.initial_store
             (FrameworkError "model unavailable") eq_refl); [reflexivity|].
  apply Forall_cons; split; [intros _; eexists; reflexivity|apply Forall_nil_2].
Defined.

Lemma console_prints_what_web_returns_witness :
  let events := [(Samples.text_event "ResearchAgent" (Some "first") true,
                  MultiToolAgent.initial_store);
                 (Samples.text_event "ExplanationAgent" (Some "second") true,
                  MultiToolAgent.initial_store)] in
  last (MultiToolAgent.print_final_responses events None MultiToolAgent.initial_store
          ["query"]).1.2 = Some "second".
Proof.
  intros events.
  refine (proj1 (proj2 (console_prints_what_web_returns events None
                          MultiToolAgent.initial_store ["query"] "second" eq_refl _))).
  discriminate.
Defined.

(** ** What a query and a console call leave alone *)

(** X14. A query leaves the registry entries of the other users as they are,
    and, with a runner that only touches the session it is run on, every
    record of the store except the one of the session it resolved. *)
Theorem query_leaves_others
    (uuid4 : nat → string) (run : RunnerRun) (q u : string) (w : Gradio.World) :
  let sid := (Gradio.get_session_id uuid4 u w).1 in
  let w' := (Gradio.process_code_query uuid4 run q u w).2 in
  (∀ u', u' ≠ u → Gradio.user_sessions w' !! u' = Gradio.user_sessions w !! u')
  ∧ (local_run run →
     ∀ key, key ≠ (Gradio.APP_NAME, u, sid) →
            Gradio.session_service w' !! key = Gradio.session_service w !! key).
Proof.
  intros sid w'. split.
  - intros u' Hne. unfold w'. rewrite process_code_query_unfold; simpl.
    by apply get_session_id_others.
  - intros Hlocal key Hne. by apply process_code_query_other.
Qed.

Lemma query_leaves_others_witness :
  let run := Samples.replay [Samples.text_event "ExplanationAgent" (Some "done") true] None in
  let w := (Gradio.new_session pretty "alice" Gradio.initial_world).2 in
  Gradio.session_service (Gradio.process_code_query pretty run "hello" "bob" w).2
    !! (Gradio.APP_NAME, "alice", "session_0")
  = Gradio.session_service w !! (Gradio.APP_NAME, "alice", "session_0").
Proof.
  intros run w.
  apply (proj2 (query_leaves_others pretty run "hello" "bob" w)); [|discriminate].
  intros runner user sid new_message store key _. split; [|done].
  apply Forall_cons; split; [done|apply Forall_nil_2].
Defined.

(** X15. Whatever the run does, the first thing call_agent prints is the query
    line, and it is printed also when the call raises. *)
Theorem call_agent_echoes_query
    (run : RunnerRun) (query : string) (store : InMemorySessionService) :
  ∃ responses,
    (MultiToolAgent.call_agent run query store).1.2
    = (MultiToolAgent.newline +:+ "User Query: " +:+ query) :: responses.
Proof.
  unfold MultiToolAgent.call_agent.
  generalize (yields (run MultiToolAgent.runner MultiToolAgent.USER_ID
                        MultiToolAgent.SESSION_ID
                        {| types.role := "user";
                           types.parts := Some [ {| types.text := Some query |} ] |} store)).
  intros events.
  assert (∀ line stdout, ∃ responses,
            (MultiToolAgent.print_final_responses events
               (raised (run MultiToolAgent.runner MultiToolAgent.USER_ID
                          MultiToolAgent.SESSION_ID
                          {| types.role := "user";
                             types.parts := Some [ {| types.text := Some query |} ] |} store))
               (final (run MultiToolAgent.runner MultiToolAgent.USER_ID
                         MultiToolAgent.SESSION_ID
                         {| types.role := "user";
                            types.parts := Some [ {| types.text := Some query |} ] |} store))
               (line :: stdout)).1.2 = line :: responses) as Hprefix.
  { induction events as [|[event store'] events IH]; intros line stdout; simpl.
    - destruct (raised _); simpl; eauto.
    - destruct (is_final_response event); [|by apply IH].
      destruct (content_parts_0_text event) as [e|t]; simpl; [eauto|]. apply IH. }
  apply Hprefix.
Qed.
